(** * The query-result cache of searx (search_database.py) and its refresh
    loop (webapp.py, update_results), embedded and verified.

    Definitions: Python text rendering ([PyStr]), the Redis commands the
    code issues ([Redis]), exceptions and the state monad, the data model,
    the cache operations, the refresh loop, a codec that meets the contract
    of pickle ([PickleModel]), the vocabulary of the statements and sample
    data.  Theorems: texts, the cache key, the sorted set, the cache
    operations, the refresh loop, and runs on concrete databases. *)

From Stdlib Require Import ZArith QArith Ascii String.
From Stdlib.Strings Require Import Byte.
From stdpp Require Import base tactics option list strings pretty gmap sorting.

Local Open Scope Z_scope.

(** ** Rendering of Python values as text, as [str.format] does it

    A Python str is a [string] whose characters are code points below
    256. *)
Module PyStr.

(** [c in s] for a one-character [c]. *)
Fixpoint has_char (c : ascii) (s : string) : bool :=
  match s with
  | EmptyString => false
  | String a r => if Ascii.eqb a c then true else has_char c r
  end.

Definition colon : ascii := ":"%char.
Definition squote : ascii := "'"%char.
Definition dquote : ascii := "034"%char.
Definition backslash : ascii := "092"%char.

(** A text that holds no [:], the delimiter of the cache key. *)
Definition colon_free (s : string) : bool := negb (has_char colon s).

(** [str(n)] for a Python int: decimal digits with a leading minus sign. *)
Definition str_int (n : Z) : string := pretty n.

(** The digits of the [\xhh] escape. *)
Definition hex_digits : string := "0123456789abcdef".

Definition hex_digit (n : N) : ascii :=
  match String.get (N.to_nat n) hex_digits with
  | Some c => c
  | None => "f"%char
  end.

(** Code points below 256 that [repr] copies unescaped: printable ASCII and
    the printable part of Latin-1 (not the C1 controls, the no-break space
    or the soft hyphen). *)
Definition is_printable (c : ascii) : bool :=
  let n := N_of_ascii c in
  ((32 <=? n) && (n <? 127) || (161 <=? n) && negb (n =? 173))%N.

(** One character of [repr(s)], inside the quotes [q]. *)
Definition repr_char (q c : ascii) : string :=
  if Ascii.eqb c q || Ascii.eqb c backslash then String backslash (String c "")
  else if Ascii.eqb c "009" then String backslash "t"
  else if Ascii.eqb c "010" then String backslash "n"
  else if Ascii.eqb c "013" then String backslash "r"
  else if is_printable c then String c ""
  else
    let n := N_of_ascii c in
    String backslash
      (String "x" (String (hex_digit (n / 16)) (String (hex_digit (n mod 16)) ""))).

Fixpoint repr_body (q : ascii) (s : string) : string :=
  match s with
  | EmptyString => EmptyString
  | String c r => repr_char q c +:+ repr_body q r
  end.

(** [repr] quotes with ['] unless the text holds a ['] and no double quote. *)
Definition repr_quote (s : string) : ascii :=
  if has_char squote s && negb (has_char dquote s) then dquote else squote.

Definition repr_str (s : string) : string :=
  let q := repr_quote s in
  String q (repr_body q s +:+ String q "").

(** [", ".join(items)] *)
Fixpoint join_comma (items : list string) : string :=
  match items with
  | [] => ""
  | [x] => x
  | x :: r => x +:+ ", " +:+ join_comma r
  end.

(** [str(l)] for a list of str: the [repr] of each element, in brackets. *)
Definition str_list (l : list string) : string :=
  "[" +:+ join_comma (map repr_str l) +:+ "]".

(** Reading a [repr] back, to tell apart the texts [repr] produces: the
    value of a hexadecimal digit, and the text up to the closing quote [q]
    with its escapes undone, together with what follows the quote. *)
Fixpoint index_of (c : ascii) (s : string) : option N :=
  match s with
  | EmptyString => None
  | String a r => if Ascii.eqb a c then Some 0%N else N.succ <$> index_of c r
  end.

Definition unhex (c : ascii) : option N := index_of c hex_digits.

Definition unescape (e : ascii) : ascii :=
  if Ascii.eqb e "t" then "009"
  else if Ascii.eqb e "n" then "010"
  else if Ascii.eqb e "r" then "013"
  else e.

Definition push (c : ascii) (p : option (string * string)) : option (string * string) :=
  match p with
  | Some (s, rest) => Some (String c s, rest)
  | None => None
  end.

Fixpoint unrepr_body (q : ascii) (s : string) : option (string * string) :=
  match s with
  | EmptyString => None
  | String c r =>
      if Ascii.eqb c q then Some (EmptyString, r)
      else if Ascii.eqb c backslash then
        match r with
        | EmptyString => None
        | String e r1 =>
            if Ascii.eqb e "x" then
              match r1 with
              | String h (String l r2) =>
                  match unhex h, unhex l with
                  | Some a, Some b => push (ascii_of_N (16 * a + b)) (unrepr_body q r2)
                  | _, _ => None
                  end
              | _ => None
              end
            else push (unescape e) (unrepr_body q r1)
        end
      else push c (unrepr_body q r)
  end.

Definition unrepr_str (s : string) : option (string * string) :=
  match s with
  | EmptyString => None
  | String q r =>
      if Ascii.eqb q squote || Ascii.eqb q dquote then unrepr_body q r else None
  end.

End PyStr.

(** ** The Redis commands the cache issues

    The code keeps three kinds of keys in one Redis database: one string
    value per cache key, the integer under [SEARCH_HISTORY_INDEX] and the
    sorted set under [SEARCH_HISTORY_KEYS].  Cache keys start with
    [SEARCH_HISTORY:] (lemmas [make_key_not_index], [make_key_not_keys]),
    so the three never share a key and the database is a record of the
    three.  Sequence numbers and scores are integers of [Z]: the counter
    stays far from the 64-bit bound of INCR and from the 53 bits a score
    holds exactly.  The commands always answer; a server out of reach is
    outside this model. *)
Module Redis.

Record db := {
  strings : gmap string (list byte);  (* GET / SET *)
  counter : Z;                        (* SEARCH_HISTORY_INDEX *)
  zset : list (string * Z)            (* SEARCH_HISTORY_KEYS, in rank order *)
}.

Definition empty : db := {| strings := ∅; counter := 0; zset := [] |}.

(** GET key *)
Definition get (key : string) (r : db) : option (list byte) :=
  strings r !! key.

(** SET key value *)
Definition set (key : string) (v : list byte) (r : db) : db :=
  {| strings := <[key := v]> (strings r); counter := counter r; zset := zset r |}.

(** INCR: a missing counter counts as 0; the new value is returned. *)
Definition incr (r : db) : Z * db :=
  (counter r + 1,
   {| strings := strings r; counter := counter r + 1; zset := zset r |}).

(** Rank order of a sorted set: by score, ties by member. *)
Definition zle (a b : string * Z) : bool :=
  (a.2 <? b.2) || ((a.2 =? b.2) && String.leb a.1 b.1).

Fixpoint zinsert (a : string * Z) (z : list (string * Z)) : list (string * Z) :=
  match z with
  | [] => [a]
  | b :: r => if zle a b then a :: b :: r else b :: zinsert a r
  end.

Definition zremove (member : string) (z : list (string * Z)) : list (string * Z) :=
  filter (λ b, b.1 ≠ member) z.

(** ZADD with one member: a member already present moves to its new score. *)
Definition zadd (member : string) (score : Z) (r : db) : db :=
  {| strings := strings r; counter := counter r;
     zset := zinsert (member, score) (zremove member (zset r)) |}.

(** ZRANGE start stop, by rank, both ends included; negative ranks count
    from the end. *)
Definition zrange (start stop : Z) (r : db) : list string :=
  let llen := Z.of_nat (length (zset r)) in
  let start := if start <? 0 then llen + start else start in
  let stop := if stop <? 0 then llen + stop else stop in
  let start := if start <? 0 then 0 else start in
  if (start >? stop) || (start >=? llen) then []
  else
    let stop := if stop >=? llen then llen - 1 else stop in
    (take (Z.to_nat (stop - start + 1)) (drop (Z.to_nat start) (zset r))).*1.

(** A pipeline of GETs, executed in one round trip. *)
Definition pipeline_get (keys : list string) (r : db) : list (option (list byte)) :=
  map (λ k, get k r) keys.

End Redis.

(** ** Exceptions and the monad of the cache operations *)

Inductive exn :=
  | IndexError        (* [categories[0]] on an empty list *)
  | AttributeError    (* an attribute of [None] *)
  | TypeError         (* [pickle.loads(None)] *)
  | UnpicklingError   (* [pickle.loads] on bytes that are no pickle *)
  | EOFError.         (* [pickle.loads] on truncated bytes *)

#[global] Instance exn_eq_dec : EqDecision exn.
Proof. solve_decision. Defined.

(** A computation over a state [S] that returns or raises. *)
Definition ST (S A : Type) : Type := S → (exn + A) * S.

#[global] Instance ST_ret {S} : MRet (ST S) := λ A a s, (inr a, s).
#[global] Instance ST_bind {S} : MBind (ST S) := λ A B k m s,
  match m s with
  | (inl e, s') => (inl e, s')
  | (inr a, s') => k a s'
  end.

Definition raise {S A} (e : exn) : ST S A := λ s, (inl e, s).
Definition reads {S A} (f : S → A) : ST S A := λ s, (inr (f s), s).
Definition writes {S} (f : S → S) : ST S unit := λ s, (inr tt, f s).
Definition call {S A} (f : S → A * S) : ST S A :=
  λ s, let '(a, s') := f s in (inr a, s').

(** The cache operations run over the database. *)
Abbreviation M := (ST Redis.db).

(** ** Data model *)

(** Modelled from the spec: the class [SearchQuery] of searx.query is not
    part of the sources at hand.  It has the seven attributes [make_key]
    reads: the query text, the ordered list of engine names, the
    categories (the first one is the primary category), the language code,
    the safe-search level and the page number (Python ints) and the
    optional time range. *)
Record SearchQuery := {
  query : string;
  engines : list string;
  categories : list string;
  language : string;
  safesearch : Z;
  pageno : Z;
  time_range : option string
}.

#[global] Instance SearchQuery_eq_dec : EqDecision SearchQuery.
Proof. solve_decision. Defined.

(** [q.time_range = t] *)
Definition set_time_range (t : option string) (q : SearchQuery) : SearchQuery :=
  {| query := query q; engines := engines q; categories := categories q;
     language := language q; safesearch := safesearch q; pageno := pageno q;
     time_range := t |}.

(** Modelled from the spec: a cache entry (the class [SearchData] of
    searx.search, not part of the sources at hand) has the seven identity
    attributes of a query, kept here as one [SearchQuery], and the eight
    output attributes [update] copies.  The outputs are Python objects the
    cache never looks into: their type [pyobj] is a parameter. *)
Record SearchData (pyobj : Type) := {
  sd_query : SearchQuery;
  results : pyobj;
  paging : pyobj;
  results_number : pyobj;
  answers : pyobj;
  corrections : pyobj;
  infoboxes : pyobj;
  suggestions : pyobj;
  unresponsive_engines : pyobj
}.
Arguments Build_SearchData {pyobj}.
Arguments sd_query {pyobj}.
Arguments results {pyobj}.
Arguments paging {pyobj}.
Arguments results_number {pyobj}.
Arguments answers {pyobj}.
Arguments corrections {pyobj}.
Arguments infoboxes {pyobj}.
Arguments suggestions {pyobj}.
Arguments unresponsive_engines {pyobj}.

(** ** search_database.py *)

Import PyStr.

(** [make_key(q)]: the key, or the exception raised, together with [q] as
    the call leaves it (an absent time range is overwritten by [""] before
    anything else happens). *)
Definition make_key (q : SearchQuery) : (exn + string) * SearchQuery :=
  let q := match time_range q with
           | None => set_time_range (Some "") q
           | Some _ => q
           end in
  match categories q with
  | [] => (inl IndexError, q)
  | c0 :: _ =>
      (inr ("SEARCH_HISTORY:" +:+ query q
            +:+ ":" +:+ str_list (engines q)
            +:+ ":" +:+ c0
            +:+ ":" +:+ language q
            +:+ ":" +:+ str_int (safesearch q)
            +:+ ":" +:+ str_int (pageno q)
            +:+ ":" +:+ default "" (time_range q)), q)
  end.

Section Cache.

Context {pyobj : Type}.

(** [pickle.dumps(d, protocol)] and [pickle.loads(b)] of the Python
    library. *)
Variable pickle_dumps : SearchData pyobj → Z → list byte.
Variable pickle_loads : list byte → exn + SearchData pyobj.

(** [make_key(d)] on a cache entry: the same attributes, read from and
    written to the entry. *)
Definition make_key_data (d : SearchData pyobj) : (exn + string) * SearchData pyobj :=
  let '(k, q) := make_key (sd_query d) in
  (k, Build_SearchData q (results d) (paging d) (results_number d) (answers d)
        (corrections d) (infoboxes d) (suggestions d) (unresponsive_engines d)).

(** [read(q)]: the entry or [None]; the database is only read.  What the
    call leaves in [q] is what [make_key] leaves there. *)
Definition read (q : SearchQuery) : M (option (SearchData pyobj)) :=
  match (make_key q).1 with
  | inl e => raise e
  | inr key =>
      response ← reads (Redis.get key);
      match response with
      | None | Some [] => mret None
      | Some b =>
          match pickle_loads b with
          | inl e => raise e
          | inr d => mret (Some d)
          end
      end
  end.

(** [save(d)]; returns [d] as the call leaves it. *)
Definition save (d : SearchData pyobj) : M (SearchData pyobj) :=
  let '(k, d) := make_key_data d in
  match k with
  | inl e => raise e
  | inr key =>
      history ← call Redis.incr;
      writes (Redis.zadd key history);;
      writes (Redis.set key (pickle_dumps d 4));;
      mret d
  end.

(** [get_twenty_queries(x)] *)
Fixpoint load_rows (output : list (option (list byte))) : exn + list SearchQuery :=
  match output with
  | [] => inr []
  | row :: rest =>
      match row with
      | None => inl TypeError
      | Some b =>
          match pickle_loads b with
          | inl e => inl e
          | inr row =>
              match load_rows rest with
              | inl e => inl e
              | inr result =>
                  inr (Build_SearchQuery
                         (query (sd_query row)) (engines (sd_query row))
                         (categories (sd_query row)) (language (sd_query row))
                         (safesearch (sd_query row)) (pageno (sd_query row))
                         (time_range (sd_query row)) :: result)
              end
          end
      end
  end.

Definition get_twenty_queries (x : Z) : M (list SearchQuery) :=
  keys ← reads (Redis.zrange x (x + 20));
  match keys with
  | [] => mret []
  | _ =>
      output ← reads (Redis.pipeline_get keys);
      match load_rows output with
      | inl e => raise e
      | inr result => mret result
      end
  end.

(** [update(d)]; returns [d] as the call leaves it. *)
Definition update (d : SearchData pyobj) : M (SearchData pyobj) :=
  let '(k, d) := make_key_data d in
  match k with
  | inl e => raise e
  | inr key =>
      current ← read (sd_query d);
      match current with
      | None => raise AttributeError
      | Some current =>
          let current :=
            Build_SearchData (sd_query current) (results d) (paging d)
              (results_number d) (answers d) (corrections d) (infoboxes d)
              (suggestions d) (unresponsive_engines d) in
          writes (Redis.set key (pickle_dumps current 4));;
          mret d
      end
  end.

End Cache.

(** ** webapp.py: the refresh loop *)

(** [int(x)] of a Python float, here a rational: truncation toward zero. *)
Definition py_int (x : Q) : Z := Z.quot (Qnum x) (Z.pos (Qden x)).

(** What the refresh thread acts on: the database, how many times it has
    read the clock and the [running] event so far, and the timeouts it has
    passed to [running.wait], oldest first. *)
Record world := {
  redis : Redis.db;
  clock_reads : nat;
  event_reads : nat;
  waits : list Z
}.

Abbreviation W := (ST world).

(** A cache operation, run on the database of the world. *)
Definition on_redis {A} (m : M A) : W A := λ w,
  let '(a, r) := m (redis w) in
  (a, {| redis := r; clock_reads := clock_reads w;
         event_reads := event_reads w; waits := waits w |}).

Section Refresh.

Context {pyobj : Type}.
Variable pickle_dumps : SearchData pyobj → Z → list byte.
Variable pickle_loads : list byte → exn + SearchData pyobj.

(** The surroundings of the thread: the n-th value [time.time()] returns,
    the n-th value [running.is_set()] returns, the setting
    [settings['redis']['upgrade_history']], and the search collaborator
    ([search.search] followed by [search.create_search_data]). *)
Variable time_at : nat → Q.
Variable is_set_at : nat → bool.
Variable upgrade_history : Z.
Variable search_data : SearchQuery → SearchData pyobj.

(** [time.time()] *)
Definition time : W Q := λ w,
  (inr (time_at (clock_reads w)),
   {| redis := redis w; clock_reads := S (clock_reads w);
      event_reads := event_reads w; waits := waits w |}).

(** [running.is_set()] *)
Definition is_set : W bool := λ w,
  (inr (is_set_at (event_reads w)),
   {| redis := redis w; clock_reads := clock_reads w;
      event_reads := S (event_reads w); waits := waits w |}).

(** [running.wait(timeout)] *)
Definition running_wait (timeout : Z) : W unit := λ w,
  (inr tt,
   {| redis := redis w; clock_reads := clock_reads w;
      event_reads := event_reads w; waits := waits w ++ [timeout] |}).

(** [wait_updating(start_time)] *)
Definition wait_updating (start_time : Q) : W unit :=
  now ← time;
  let wait := upgrade_history - py_int (now - start_time) in
  if 0 <? wait then running_wait wait else (mret tt : W unit).

(** The [for query in queries] loop; [true] when it leaves through
    [return]. *)
Fixpoint refresh_queries (queries : list SearchQuery) : W bool :=
  match queries with
  | [] => (mret false : W bool)
  | query :: rest =>
      on_redis (update pickle_dumps pickle_loads (search_data query));;
      stop ← is_set;
      if (stop : bool) then (mret true : W bool) else refresh_queries rest
  end.

(** One pass through the body of the [while] loop, from the cursor [x] and
    [start_time]: [None] when the function returns, else the cursor and
    start time of the next pass. *)
Definition loop_body (x : Z) (start_time : Q) : W (option (Z * Q)) :=
  queries ← on_redis (get_twenty_queries pickle_loads x);
  returned ← refresh_queries queries;
  if (returned : bool) then (mret None : W (option (Z * Q)))
  else
    let x := x + Z.of_nat (length queries) in
    if Z.of_nat (length queries) <? 20 then
      wait_updating start_time;;
      start_time ← time;
      mret (Some (0, start_time))
    else mret (Some (x, start_time)).

(** The [while not running.is_set()] loop, for at most [fuel] passes:
    [Some tt] when the function has returned, [None] when the passes ran
    out first. *)
Fixpoint while_running (fuel : nat) (x : Z) (start_time : Q) : W (option unit) :=
  match fuel with
  | O => (mret None : W (option unit))
  | S fuel =>
      stop ← is_set;
      if (stop : bool) then (mret (Some tt) : W (option unit))
      else
        next ← loop_body x start_time;
        match next with
        | None => mret (Some tt)
        | Some (x, start_time) => while_running fuel x start_time
        end
  end.

(** [update_results()] *)
Definition update_results (fuel : nat) : W (option unit) :=
  start_time ← time;
  while_running fuel 0 start_time.

End Refresh.

(** ** A codec that meets the contract of pickle

    The theorems below take [pickle.dumps] and [pickle.loads] as given,
    under the contract that a protocol-4 pickle is never empty and loads
    back to the object dumped.  This codec meets the contract (module
    [PickleModelFacts]); the concrete runs of the cache use it, with texts
    as output objects. *)
Module PickleModel.

Definition query_fields (q : SearchQuery) :=
  (((query q, engines q), (categories q, language q)),
   ((safesearch q, pageno q), time_range q)).

Definition data_fields (d : SearchData string) :=
  ((query_fields (sd_query d), (results d, paging d)),
   (((results_number d, answers d), (corrections d, infoboxes d)),
    (suggestions d, unresponsive_engines d))).

#[global] Instance SearchQuery_countable : Countable SearchQuery.
Proof.
  refine (inj_countable' query_fields
            (λ '(((a, b), (c, d)), ((e, f), g)),
               Build_SearchQuery a b c d e f g) _).
  by intros [].
Defined.

#[global] Instance SearchData_eq_dec : EqDecision (SearchData string).
Proof. solve_decision. Defined.

#[global] Instance SearchData_countable : Countable (SearchData string).
Proof.
  refine (inj_countable' data_fields
            (λ '((q, (r1, r2)), (((r3, r4), (r5, r6)), (r7, r8))),
               match q with
               | (((a, b), (c, d)), ((e, f), g)) =>
                   Build_SearchData (Build_SearchQuery a b c d e f g)
                     r1 r2 r3 r4 r5 r6 r7 r8
               end) _).
  by intros [[]].
Defined.

(** A positive number as bytes, one binary digit per byte. *)
Fixpoint bits (p : positive) : list byte :=
  match p with
  | xH => []
  | xO p => x00 :: bits p
  | xI p => x01 :: bits p
  end.

Fixpoint unbits (b : list byte) : option positive :=
  match b with
  | [] => Some xH
  | x00 :: b => xO <$> unbits b
  | x01 :: b => xI <$> unbits b
  | _ => None
  end.

(** The protocol header (opcode [0x80], then the protocol number) and the
    payload. *)
Definition dumps (d : SearchData string) (protocol : Z) : list byte :=
  x80 :: default x00 (Byte.of_N (Z.to_N protocol)) :: bits (encode d).

Definition loads (b : list byte) : exn + SearchData string :=
  match b with
  | [] => inl EOFError
  | x80 :: _ :: payload =>
      match unbits payload ≫= decode with
      | Some d => inr d
      | None => inl UnpicklingError
      end
  | _ => inl UnpicklingError
  end.

End PickleModel.

(** ** Vocabulary of the statements *)

(** The key [make_key] builds from the attributes it reads. *)
Definition key_text (q : SearchQuery) (c0 : string) : string :=
  "SEARCH_HISTORY:" +:+ query q
  +:+ ":" +:+ str_list (engines q)
  +:+ ":" +:+ c0
  +:+ ":" +:+ language q
  +:+ ":" +:+ str_int (safesearch q)
  +:+ ":" +:+ str_int (pageno q)
  +:+ ":" +:+ default "" (time_range q).

(** No [:] in the query text, the engine names, the primary category and
    the language. *)
Definition delimiter_free (q : SearchQuery) : bool :=
  colon_free (query q) && forallb colon_free (engines q)
  && colon_free (default "" (head (categories q)))
  && colon_free (language q).

(** The two quote characters of [repr]. *)
Definition is_quote (q : ascii) : Prop := q = squote ∨ q = dquote.

(** The operations that write, as a caller issues them one after another;
    what an operation wrote before raising stays written. *)
Inductive op (pyobj : Type) :=
  | Save (d : SearchData pyobj)
  | Update (d : SearchData pyobj).
Arguments Save {pyobj}.
Arguments Update {pyobj}.

Section History.

Context {pyobj : Type}.
Variable pickle_dumps : SearchData pyobj → Z → list byte.
Variable pickle_loads : list byte → exn + SearchData pyobj.

Definition run_op (r : Redis.db) (o : op pyobj) : Redis.db :=
  match o with
  | Save d => (save pickle_dumps d r).2
  | Update d => (update pickle_dumps pickle_loads d r).2
  end.

Definition run_ops (ops : list (op pyobj)) (r : Redis.db) : Redis.db :=
  foldl run_op r ops.

End History.

Section Entries.

Context {pyobj : Type}.

(** The key of an entry, when [make_key] returns one. *)
Definition key_of (d : SearchData pyobj) : option string :=
  match (make_key (sd_query d)).1 with
  | inr key => Some key
  | inl _ => None
  end.

(** The key an operation creates an entry under. *)
Definition saved_key (o : op pyobj) : option string :=
  match o with
  | Save d => key_of d
  | Update _ => None
  end.

(** The entry [update] writes: the stored identity, the outputs of [d]. *)
Definition refreshed (current d : SearchData pyobj) : SearchData pyobj :=
  Build_SearchData (sd_query current) (results d) (paging d)
    (results_number d) (answers d) (corrections d) (infoboxes d)
    (suggestions d) (unresponsive_engines d).

(** What holds of the index at all times: no sequence number in it is above
    the counter, no sequence number occurs twice, no member occurs twice. *)
Definition index_ok (r : Redis.db) : Prop :=
  (∀ b, b ∈ Redis.zset r → b.2 ≤ Redis.counter r) ∧
  NoDup (Redis.zset r).*2 ∧ NoDup (Redis.zset r).*1.

(** [d] has the key [k]. *)
Definition keyed (d : SearchData pyobj) (k : string) : Prop :=
  (make_key (sd_query d)).1 = inr k.

(** The query [get_twenty_queries] rebuilds from the entry saved for [d]. *)
Definition stored_query (d : SearchData pyobj) : SearchQuery :=
  (make_key (sd_query d)).2.

#[global] Instance keyed_dec d k : Decision (keyed d k).
Proof. unfold keyed. apply _. Defined.

End Entries.

Section Waiting.

Variable time_at : nat → Q.
Variable upgrade_history : Z.

(** The world after [wait_updating(start_time)] and the reading of the
    clock that follows it. *)
Definition after_wait (start_time : Q) (w : world) : world :=
  let wait := upgrade_history - py_int (time_at (clock_reads w) - start_time) in
  {| redis := redis w; clock_reads := S (S (clock_reads w));
     event_reads := event_reads w;
     waits := waits w ++ (if 0 <? wait then [wait] else []) |}.

End Waiting.

(** ** Sample data *)

(** Two queries that differ in the primary category and in the language. *)
Definition q_colon_category : SearchQuery :=
  {| query := "a"; engines := []; categories := ["b:c"]; language := "d";
     safesearch := 0; pageno := 1; time_range := None |}.
Definition q_colon_language : SearchQuery :=
  {| query := "a"; engines := []; categories := ["b"]; language := "c:d";
     safesearch := 0; pageno := 1; time_range := None |}.

(** Page 1 and page 2 of one query. *)
Definition q_page1 : SearchQuery :=
  {| query := "rust"; engines := ["google"; "bing"]; categories := ["general"];
     language := "en"; safesearch := 0; pageno := 1; time_range := None |}.
Definition q_page2 : SearchQuery :=
  {| query := "rust"; engines := ["google"; "bing"]; categories := ["general"];
     language := "en"; safesearch := 0; pageno := 2; time_range := Some "" |}.

(** A query without a time range. *)
Definition q_no_time_range : SearchQuery :=
  {| query := "rust"; engines := ["google"]; categories := ["general"];
     language := "en"; safesearch := 0; pageno := 1; time_range := None |}.

(** Two queries of one key: they agree on the first category, the only one
    [make_key] reads, and differ in the second. *)
Definition q_general_images : SearchQuery :=
  {| query := "rust"; engines := ["google"]; categories := ["general"; "images"];
     language := "en"; safesearch := 0; pageno := 1; time_range := None |}.
Definition q_general_videos : SearchQuery :=
  {| query := "rust"; engines := ["google"]; categories := ["general"; "videos"];
     language := "en"; safesearch := 0; pageno := 1; time_range := Some "" |}.

Module Samples.
Import PickleModel.

(** An entry whose eight outputs are all the text [out]. *)
Definition entry (q : SearchQuery) (out : string) : SearchData string :=
  Build_SearchData q out out out out out out out out.

Definition key_page1 : string :=
  "SEARCH_HISTORY:rust:['google', 'bing']:general:en:0:1:".
Definition key_page2 : string :=
  "SEARCH_HISTORY:rust:['google', 'bing']:general:en:0:2:".
Definition key_rust : string :=
  "SEARCH_HISTORY:rust:['google']:general:en:0:1:".

(** A database whose value under [key_rust] is no pickle. *)
Definition corrupt_db : Redis.db := Redis.set key_rust [x00] Redis.empty.

(** Twenty-five entries, page 1 to page 25 of one query, and their keys. *)
Definition page (n : Z) : SearchQuery :=
  {| query := "rust"; engines := []; categories := ["general"];
     language := "en"; safesearch := 0; pageno := n; time_range := Some "" |}.
Definition entries25 : list (SearchData string) :=
  (λ n, entry (page n) "old") <$> seqZ 1 25.
Definition keys25 : list string :=
  (λ n, "SEARCH_HISTORY:rust:[]:general:en:0:" +:+ pretty n +:+ ":") <$> seqZ 1 25.

(** The refresh thread at its start over a database with one saved entry;
    the event is never set, searching gives new outputs, and the target
    cycle duration is 10 seconds. *)
Definition one_entry_world : world :=
  {| redis := run_ops dumps loads [Save (entry q_no_time_range "old")] Redis.empty;
     clock_reads := 0; event_reads := 0; waits := [] |}.
Definition never_set (n : nat) : bool := false.
Definition search_new (q : SearchQuery) : SearchData string := entry q "new".

(** A clock that shows 9.5 seconds at every reading. *)
Definition clock_9_5 (n : nat) : Q := 19 # 2.
(** A clock that shows 4 seconds, then 5, then 6 ... *)
Definition clock_from_4 (n : nat) : Q := inject_Z (4 + Z.of_nat n).

End Samples.

(** ** webapp.py: the path fix behind a reverse proxy, and the theme name *)

(** [s.startswith(prefix)] and [s[n:]] *)
Fixpoint startswith (s prefix : string) : bool :=
  match prefix with
  | EmptyString => true
  | String a prefix =>
      match s with
      | EmptyString => false
      | String b s => Ascii.eqb b a && startswith s prefix
      end
  end.

Fixpoint slice_from (n : nat) (s : string) : string :=
  match n with
  | O => s
  | S n => match s with
           | EmptyString => EmptyString
           | String _ s => slice_from n s
           end
  end.

(** [environ[key]] raises [KeyError] for a key that is not there. *)
Inductive wsgi_exn := KeyError.

(** The body of [ReverseProxyPathFix.__call__] up to the call of the
    wrapped application: the exception raised, if any, and the WSGI
    environment as the code leaves it (the entries it touches hold
    texts). *)
Definition fix_environ (environ : gmap string string)
  : (wsgi_exn + unit) * gmap string string :=
  let script_name := default "" (environ !! "HTTP_X_SCRIPT_NAME") in
  let step :=
    if decide (script_name = "") then (inr tt, environ)
    else
      let environ := <["SCRIPT_NAME" := script_name]> environ in
      match environ !! "PATH_INFO" with
      | None => (inl KeyError, environ)
      | Some path_info =>
          if startswith path_info script_name then
            (inr tt,
             <["PATH_INFO" := slice_from (String.length script_name) path_info]>
               environ)
          else (inr tt, environ)
      end in
  match step with
  | (inl e, environ) => (inl e, environ)
  | (inr _, environ) =>
      let scheme := default "" (environ !! "HTTP_X_SCHEME") in
      if decide (scheme = "") then (inr tt, environ)
      else (inr tt, <["wsgi.url_scheme" := scheme]> environ)
  end.

(** [ReverseProxyPathFix.__call__]: the wrapped application [app] is
    called on the environment as fixed. *)
Definition reverse_proxy_call {R : Type} (app : gmap string string → R)
    (environ : gmap string string) : wsgi_exn + R :=
  match fix_environ environ with
  | (inl e, _) => inl e
  | (inr _, environ) => inr (app environ)
  end.

(** [get_current_theme_name(override)], from the themes found on disk,
    the default theme of the settings, the [theme] argument of the request
    if it has one, and the theme of the preferences. *)
Definition get_current_theme_name (themes : list string) (default_theme : string)
    (args_theme : option string) (preferences_theme : string)
    (override : option string) : string :=
  match override with
  | Some o =>
      if negb (String.eqb o "")
         && (bool_decide (o ∈ themes) || String.eqb o "__common__")
      then o
      else
        let theme_name := default preferences_theme args_theme in
        if bool_decide (theme_name ∈ themes) then theme_name else default_theme
  | None =>
      let theme_name := default preferences_theme args_theme in
      if bool_decide (theme_name ∈ themes) then theme_name else default_theme
  end.

(** ** webapp.py: the search page and the image proxy *)

(** In [index()]: the category taken from the form fields [category_...]
    when the form has no field [category]; [items] are the fields in the
    order of the form, [category] is the local variable, [None] at the
    start. *)
Fixpoint pick_category (categories : list string) (items : list (string * string))
    (category : option string) : option string :=
  match items with
  | [] => category
  | (name, value) :: items =>
      if startswith name "category_" then
        let category := slice_from 9 name in
        if bool_decide (category ∈ categories) && String.eqb value "on"
        then Some category
        else pick_category categories items (Some category)
      else pick_category categories items category
  end.

Section FirstPage.

(** A result of a search and its [category] entry, if it has one. *)
Context {result : Type} `{EqDecision result}.
Variable category : result → option string.

(** [l.remove(x)]: the list without its first element equal to [x], or
    [ValueError] ([None]) when there is none. *)
Fixpoint list_remove (x : result) (l : list result) : option (list result) :=
  match l with
  | [] => None
  | y :: l => if decide (y = x) then Some l else cons y <$> list_remove x l
  end.

(** In [index()], on the first page of the general category:
    [for res in list(results): if res.get('category') != 'general':
    results.remove(res)], with [copy] what is left of [list(results)]. *)
Fixpoint remove_other_categories (copy results : list result)
  : option (list result) :=
  match copy with
  | [] => Some results
  | res :: copy =>
      if decide (category res = Some "general")
      then remove_other_categories copy results
      else results ← list_remove res results;
           remove_other_categories copy results
  end.

(** The image results and the video results shown beside them. *)
Definition image_results (results : list result) : list result :=
  take 5 (filter (λ r, category r = Some "images") results).
Definition videos_results (results : list result) : list result :=
  take 2 (filter (λ r, category r = Some "videos") results).

End FirstPage.

(** What [image_proxy()] gets from the image server and what it answers.
    The headers of the server are read through [header], whatever the case
    of their names. *)
Record upstream := {
  status_code : Z;
  header : string → option string;
  iter_content : list (list byte)
}.

Record reply := {
  body : list byte;
  status : Z;
  mimetype : option string;
  headers : list (string * string)
}.

(** [return '', code] *)
Definition empty_reply (code : Z) : reply :=
  {| body := []; status := code; mimetype := None; headers := [] |}.

(** The loop over [resp.iter_content(1024 * 1024)]: the image, or [None]
    when a sixth chunk arrives. *)
Fixpoint read_chunks (chunks : list (list byte)) (chunk_counter : Z)
    (img : list byte) : option (list byte) :=
  match chunks with
  | [] => Some img
  | chunk :: chunks =>
      let chunk_counter := chunk_counter + 1 in
      if 5 <? chunk_counter then None
      else read_chunks chunks chunk_counter (img ++ chunk)
  end.

Section ImageProxy.

(** [new_hmac] with the secret key of the server, [gen_useragent()],
    [dict_subset] on the headers of the request and of the server, and
    [requests.get] as the answer of the image server to a URL and
    headers. *)
Variable new_hmac : string → string.
Variable gen_useragent : string.
Variable request_subset : list (string * string) → list string → list (string * string).
Variable resp_subset : upstream → list string → list (string * string).
Variable requests_get : string → list (string * string) → upstream.

(** [image_proxy()], from the arguments [url] and [h] of the request and
    its headers. *)
Definition image_proxy (args_url args_h : option string)
    (request_headers : list (string * string)) : reply :=
  match args_url with
  | None | Some "" => empty_reply 400
  | Some url =>
      let h := new_hmac url in
      if negb (bool_decide (Some h = args_h)) then empty_reply 400
      else
        let headers :=
          request_subset request_headers ["If-Modified-Since"; "If-None-Match"]
          ++ [("User-Agent", gen_useragent)] in
        let resp := requests_get url headers in
        if status_code resp =? 304 then empty_reply (status_code resp)
        else if negb (status_code resp =? 200) then
          if status_code resp >=? 400 then empty_reply (status_code resp)
          else empty_reply 400
        else if negb (startswith (default "" (header resp "content-type")) "image/")
        then empty_reply 400
        else
          match read_chunks (iter_content resp) 0 [] with
          | None => empty_reply 502
          | Some img =>
              {| body := img; status := 200;
                 mimetype := header resp "content-type";
                 headers := resp_subset resp
                              ["Content-Length"; "Length"; "Date";
                               "Last-Modified"; "Expires"; "Etag"] |}
          end
  end.

End ImageProxy.

(** ** More sample data *)
Module MoreSamples.
Import PickleModel Samples.

(** The query of [q_no_time_range] with a second category, and with no
    category at all. *)
Definition q_two_categories : SearchQuery :=
  {| query := "rust"; engines := ["google"]; categories := ["general"; "images"];
     language := "en"; safesearch := 0; pageno := 1; time_range := None |}.
Definition q_no_category : SearchQuery :=
  {| query := "rust"; engines := ["google"]; categories := [];
     language := "en"; safesearch := 0; pageno := 1; time_range := None |}.

(** The query as [save] stores it. *)
Definition q_stored : SearchQuery := set_time_range (Some "") q_no_time_range.

(** An event that is set from the start. *)
Definition always_set (n : nat) : bool := true.

(** A database with two saved entries. *)
Definition two_entries_db : Redis.db :=
  run_ops dumps loads
    [Save (entry q_page1 "old"); Save (entry q_page2 "old")] Redis.empty.

(** The refresh thread at its start over that database, and a search
    collaborator that answers page 1 with an entry of the query asked for
    and every other page with an entry of another identity, one that was
    never saved. *)
Definition two_entries_world : world :=
  {| redis := two_entries_db; clock_reads := 0; event_reads := 0; waits := [] |}.
Definition search_page1_only (q : SearchQuery) : SearchData string :=
  if bool_decide (pageno q = 1) then entry q "new"
  else entry q_no_time_range "new".

(** A WSGI environment behind a proxy that serves the application under
    [/searx] over https, and one without a path. *)
Definition proxied_environ : gmap string string :=
  <["HTTP_X_SCRIPT_NAME" := "/searx"]>
    (<["PATH_INFO" := "/searx/search"]>
       (<["HTTP_X_SCHEME" := "https"]> (<["REQUEST_METHOD" := "GET"]> ∅))).
Definition pathless_environ : gmap string string :=
  <["HTTP_X_SCRIPT_NAME" := "/searx"]> ∅.
Definition plain_environ : gmap string string :=
  <["PATH_INFO" := "/search"]> (<["REQUEST_METHOD" := "GET"]> ∅).

(** The categories of the engines and the fields of a search form. *)
Definition known_categories : list string := ["general"; "images"; "videos"].
Definition form_before : list (string * string) :=
  [("q", "rust"); ("category_maps", "on"); ("category_images", "off")].
Definition form_after : list (string * string) :=
  [("category_videos", "on"); ("pageno", "2")].

(** A signature, and an image server that answers with a PNG in two
    chunks. *)
Definition sign (url : string) : string := "sig:" +:+ url.
Definition png_server (url : string) (headers : list (string * string)) : upstream :=
  {| status_code := 200;
     header := λ name, if String.eqb name "content-type" then Some "image/png"
                       else None;
     iter_content := [[x89; x50]; [x4e; x47]] |}.
Definition no_subset (h : list (string * string)) (names : list string)
  : list (string * string) := [].
Definition no_resp_subset (resp : upstream) (names : list string)
  : list (string * string) := [].

End MoreSamples.

(** * Theorems *)

(** ** The codec *)
Module PickleModelFacts.
Import PickleModel.

Lemma unbits_bits p : unbits (bits p) = Some p.
Proof. induction p as [p IH|p IH|]; simpl; by rewrite ?IH. Qed.

Lemma loads_dumps d : loads (dumps d 4) = inr d.
Proof.
  unfold loads, dumps. rewrite unbits_bits.
  change (Some (encode d) ≫= decode) with (decode (encode d) : option (SearchData string)).
  by rewrite decode_encode.
Qed.

Lemma dumps_nonempty d : dumps d 4 ≠ [].
Proof. done. Qed.

End PickleModelFacts.

(** ** Texts *)
Module PyStrFacts.
Import PyStr.

#[local] Arguments String.append : simpl nomatch.

Lemma has_char_app c a b : has_char c (a +:+ b) = has_char c a || has_char c b.
Proof.
  induction a as [|x a IH]; simpl; [done|].
  destruct (Ascii.eqb x c); [done|apply IH].
Qed.

Lemma colon_free_app a b :
  colon_free (a +:+ b) = colon_free a && colon_free b.
Proof. unfold colon_free. rewrite has_char_app. apply negb_orb. Qed.

Lemma str_app_assoc (a b c : string) : (a +:+ b) +:+ c = a +:+ (b +:+ c).
Proof. induction a as [|x a IH]; simpl; [done|by rewrite IH]. Qed.

(** Two texts cut at their first [:] agree piece by piece. *)
Lemma split_colon a b r r' :
  colon_free a = true → colon_free b = true →
  a +:+ String colon r = b +:+ String colon r' → a = b ∧ r = r'.
Proof.
  revert b. induction a as [|x a IH]; intros [|y b] Ha Hb Heq; simpl in *.
  - by injection Heq.
  - injection Heq as <- _. by compute in Hb.
  - injection Heq as -> _. by compute in Ha.
  - injection Heq as -> Heq.
    unfold colon_free in *; simpl in *.
    destruct (Ascii.eqb y colon); [done|].
    destruct (IH b Ha Hb Heq) as [-> ->]. done.
Qed.

(** *** Integers *)

Lemma colon_free_pretty_N_go x s :
  colon_free s = true → colon_free (pretty_N_go x s) = true.
Proof.
  revert s. induction (N.lt_wf_0 x) as [x _ IH]; intros s Hs.
  destruct (decide (x = 0%N)) as [->|Hx].
  - by rewrite pretty_N_go_0.
  - rewrite pretty_N_go_step by lia. apply IH.
    + apply N.div_lt; lia.
    + assert (Ascii.eqb (pretty_N_char (x `mod` 10)) colon = false) as Hd.
      { unfold pretty_N_char. by repeat case_match. }
      unfold colon_free in *. simpl. by rewrite Hd.
Qed.

Lemma colon_free_pretty_N (x : N) : colon_free (pretty x) = true.
Proof.
  unfold pretty, pretty_N. case_decide; [done|].
  by apply colon_free_pretty_N_go.
Qed.

Lemma colon_free_str_int n : colon_free (str_int n) = true.
Proof.
  unfold str_int, pretty, pretty_Z. destruct n as [|p|p].
  - done.
  - apply (colon_free_pretty_N (N.pos p)).
  - rewrite colon_free_app. apply (colon_free_pretty_N (N.pos p)).
Qed.

Lemma str_int_inj n m : str_int n = str_int m → n = m.
Proof. apply pretty_Z_inj. Qed.

(** *** [repr] of a text *)

Lemma repr_quote_is_quote s : is_quote (repr_quote s).
Proof.
  unfold repr_quote, is_quote.
  destruct (has_char squote s && negb (has_char dquote s)); auto.
Qed.

Ltac each_char c := destruct c as [[] [] [] [] [] [] [] []].

(** Undoing the escape of one character. *)
Lemma unrepr_body_char q c rest :
  is_quote q →
  unrepr_body q (repr_char q c +:+ rest) = push c (unrepr_body q rest).
Proof. intros [-> | ->]; each_char c; reflexivity. Qed.

Lemma unrepr_body_repr q s rest :
  is_quote q →
  unrepr_body q (repr_body q s +:+ String q rest) = Some (s, rest).
Proof.
  intros Hq. induction s as [|c s IH]; simpl.
  - by rewrite Ascii.eqb_refl.
  - by rewrite str_app_assoc, unrepr_body_char, IH.
Qed.

(** [repr] can be read back, whatever follows it. *)
Lemma unrepr_str_repr s rest : unrepr_str (repr_str s +:+ rest) = Some (s, rest).
Proof.
  unfold repr_str. simpl.
  pose proof (repr_quote_is_quote s) as Hq.
  assert (Ascii.eqb (repr_quote s) squote || Ascii.eqb (repr_quote s) dquote = true)
    as -> by (by destruct Hq as [-> | ->]).
  rewrite str_app_assoc. simpl. by apply unrepr_body_repr.
Qed.

Lemma repr_str_inj s1 s2 r1 r2 :
  repr_str s1 +:+ r1 = repr_str s2 +:+ r2 → s1 = s2 ∧ r1 = r2.
Proof.
  intros Heq. pose proof (unrepr_str_repr s1 r1) as H1.
  rewrite Heq, unrepr_str_repr in H1. by simplify_eq.
Qed.

Lemma colon_free_repr_char q c :
  is_quote q → Ascii.eqb c colon = false → colon_free (repr_char q c) = true.
Proof. intros [-> | ->]; each_char c; intros H; try reflexivity; discriminate H. Qed.

Lemma colon_free_repr_body q s :
  is_quote q → colon_free s = true → colon_free (repr_body q s) = true.
Proof.
  intros Hq. induction s as [|c s IH]; [done|].
  unfold colon_free at 1. simpl.
  destruct (Ascii.eqb c colon) eqn:Hc; [done|]. intros Hs.
  rewrite colon_free_app, colon_free_repr_char, IH; done.
Qed.

Lemma colon_free_repr_str s : colon_free s = true → colon_free (repr_str s) = true.
Proof.
  intros Hs. unfold repr_str.
  pose proof (repr_quote_is_quote s) as Hq.
  change (String ?q ?r) with (String q "" +:+ r).
  rewrite !colon_free_app, colon_free_repr_body by done.
  by destruct Hq as [-> | ->].
Qed.

(** *** [str] of a list of texts *)

Lemma join_comma_cons x l :
  join_comma (x :: l) =
  x +:+ match l with [] => "" | _ => ", " +:+ join_comma l end.
Proof. destruct l; simpl; [|done]. induction x; simpl; by f_equal. Qed.

Lemma join_comma_inj l1 l2 :
  join_comma (map repr_str l1) +:+ "]" = join_comma (map repr_str l2) +:+ "]" →
  l1 = l2.
Proof.
  revert l2. induction l1 as [|x l1 IH]; intros [|y l2] Heq.
  - done.
  - exfalso. simpl map in Heq. rewrite join_comma_cons in Heq.
    pose proof (repr_quote_is_quote y) as [Hq | Hq];
      unfold repr_str in Heq; rewrite Hq in Heq; discriminate Heq.
  - exfalso. simpl map in Heq. rewrite join_comma_cons in Heq.
    pose proof (repr_quote_is_quote x) as [Hq | Hq];
      unfold repr_str in Heq; rewrite Hq in Heq; discriminate Heq.
  - simpl map in Heq. rewrite !join_comma_cons, !str_app_assoc in Heq.
    apply repr_str_inj in Heq as [-> Heq]. f_equal.
    destruct l1 as [|x1 l1], l2 as [|y1 l2]; try done.
    apply IH. simpl in Heq. by simplify_eq.
Qed.

Lemma str_list_inj l1 l2 : str_list l1 = str_list l2 → l1 = l2.
Proof.
  unfold str_list. intros Heq. apply join_comma_inj.
  simpl in Heq. by simplify_eq.
Qed.

Lemma colon_free_join_comma items :
  forallb colon_free items = true → colon_free (join_comma items) = true.
Proof.
  induction items as [|x items IH]; [done|].
  intros H. simpl in H. apply andb_true_iff in H as [Hx Hr].
  rewrite join_comma_cons, colon_free_app, Hx.
  destruct items as [|y items]; [done|].
  rewrite colon_free_app. by rewrite IH.
Qed.

Lemma colon_free_str_list l :
  forallb colon_free l = true → colon_free (str_list l) = true.
Proof.
  intros Hl. unfold str_list. rewrite !colon_free_app, colon_free_join_comma; [done|].
  induction l as [|x l IH]; [done|]. simpl in *.
  apply andb_true_iff in Hl as [Hx Hl].
  by rewrite colon_free_repr_str, IH.
Qed.

End PyStrFacts.

(** ** The cache key *)

Import PyStr PyStrFacts.

Lemma make_key_inr q key :
  (make_key q).1 = inr key →
  ∃ c0 cs, categories q = c0 :: cs ∧ key = key_text q c0.
Proof.
  unfold make_key, key_text.
  destruct q as [qu en [|c0 cs] la sa pa [t|]]; simpl; intros H;
    simplify_eq; eauto.
Qed.

Lemma make_key_cons q c0 cs :
  categories q = c0 :: cs → (make_key q).1 = inr (key_text q c0).
Proof.
  unfold make_key, key_text.
  destruct q as [qu en ca la sa pa [t|]]; simpl; by intros ->.
Qed.

Lemma make_key_nil q : categories q = [] → (make_key q).1 = inl IndexError.
Proof.
  unfold make_key. destruct q as [qu en ca la sa pa [t|]]; simpl; by intros ->.
Qed.

(** What [make_key] leaves in the object it was given. *)
Lemma make_key_object q :
  (make_key q).2 = set_time_range (Some (default "" (time_range q))) q.
Proof.
  unfold make_key.
  destruct q as [qu en [|c0 cs] la sa pa [t|]]; reflexivity.
Qed.

(** A second call finds the time range already filled in. *)
Lemma make_key_again q :
  make_key (make_key q).2 = make_key q.
Proof.
  unfold make_key.
  destruct q as [qu en [|c0 cs] la sa pa [t|]]; reflexivity.
Qed.

(** Cache keys are apart from the two fixed keys of the index. *)
Lemma make_key_not_index q key :
  (make_key q).1 = inr key → key ≠ "SEARCH_HISTORY_INDEX".
Proof. intros (c0 & cs & _ & ->)%make_key_inr. discriminate. Qed.

Lemma make_key_not_keys q key :
  (make_key q).1 = inr key → key ≠ "SEARCH_HISTORY_KEYS".
Proof. intros (c0 & cs & _ & ->)%make_key_inr. discriminate. Qed.

(** Equal keys of delimiter-free attributes come from equal attributes. *)
Lemma key_text_inj q1 c1 q2 c2 :
  colon_free (query q1) = true → colon_free (query q2) = true →
  forallb colon_free (engines q1) = true → forallb colon_free (engines q2) = true →
  colon_free c1 = true → colon_free c2 = true →
  colon_free (language q1) = true → colon_free (language q2) = true →
  key_text q1 c1 = key_text q2 c2 →
  query q1 = query q2 ∧ engines q1 = engines q2 ∧ c1 = c2 ∧
  language q1 = language q2 ∧ safesearch q1 = safesearch q2 ∧
  pageno q1 = pageno q2 ∧
  default "" (time_range q1) = default "" (time_range q2).
Proof.
  intros Hq1 Hq2 He1 He2 Hc1 Hc2 Hl1 Hl2 Heq.
  unfold key_text in Heq.
  apply (inj (String.append "SEARCH_HISTORY:")) in Heq.
  apply split_colon in Heq as [? Heq]; [|done..].
  apply split_colon in Heq as [?%str_list_inj Heq];
    [|by apply colon_free_str_list..].
  apply split_colon in Heq as [? Heq]; [|done..].
  apply split_colon in Heq as [? Heq]; [|done..].
  apply split_colon in Heq as [?%str_int_inj Heq];
    [|by apply colon_free_str_int..].
  apply split_colon in Heq as [?%str_int_inj Heq];
    [|by apply colon_free_str_int..].
  done.
Qed.

(** C1, as stated, fails: a [:] inside a field moves the field boundary,
    and two queries that differ in category and language get one key. *)
Lemma make_key_collision :
  categories q_colon_category ≠ categories q_colon_language ∧
  language q_colon_category ≠ language q_colon_language ∧
  (make_key q_colon_category).1 = inr "SEARCH_HISTORY:a:[]:b:c:d:0:1:" ∧
  (make_key q_colon_language).1 = inr "SEARCH_HISTORY:a:[]:b:c:d:0:1:".
Proof. repeat split; (discriminate || reflexivity). Qed.

(** C1, amended: among queries whose query text, engine names, primary
    category and language hold no [:], two queries that differ in the query
    text, the engines, the primary category, the language, the safe-search
    level, the page number or the time range (an absent one read as the
    empty text) never get the same key. *)
Theorem make_key_injective q1 q2 k1 k2 :
  delimiter_free q1 = true → delimiter_free q2 = true →
  (make_key q1).1 = inr k1 → (make_key q2).1 = inr k2 →
  query q1 ≠ query q2 ∨ engines q1 ≠ engines q2 ∨
  head (categories q1) ≠ head (categories q2) ∨
  language q1 ≠ language q2 ∨ safesearch q1 ≠ safesearch q2 ∨
  pageno q1 ≠ pageno q2 ∨
  default "" (time_range q1) ≠ default "" (time_range q2) →
  k1 ≠ k2.
Proof.
  unfold delimiter_free.
  intros [[[Hq1 He1]%andb_true_iff Hc1]%andb_true_iff Hl1]%andb_true_iff.
  intros [[[Hq2 He2]%andb_true_iff Hc2]%andb_true_iff Hl2]%andb_true_iff.
  intros (c1 & cs1 & Hcat1 & ->)%make_key_inr (c2 & cs2 & Hcat2 & ->)%make_key_inr.
  rewrite Hcat1 in *. rewrite Hcat2 in *. simpl in *.
  intros Hdiff Heq.
  apply key_text_inj in Heq as (? & ? & ? & ? & ? & ? & ?); [|done..].
  destruct Hdiff as [?|[?|[?|[?|[?|[?|?]]]]]]; congruence.
Qed.

Lemma make_key_injective_witness :
  "SEARCH_HISTORY:rust:['google', 'bing']:general:en:0:1:"
  ≠ "SEARCH_HISTORY:rust:['google', 'bing']:general:en:0:2:".
Proof.
  apply (make_key_injective q_page1 q_page2); try reflexivity.
  do 5 right; left. discriminate.
Defined.

(** C6, as stated, fails: the call writes [""] into the time range of a
    query that had none. *)
Lemma make_key_writes_time_range :
  time_range q_no_time_range = None ∧
  time_range (make_key q_no_time_range).2 = Some "".
Proof. split; reflexivity. Qed.

(** C6, amended: for a query with a primary category [make_key] returns a
    key without raising, and leaves the query text, engines, categories,
    language, safe-search level and page number as they were; a time range
    that is present is left as it was too (the query is unchanged), an
    absent one is replaced by the empty text. *)
Theorem make_key_total_frame q :
  categories q ≠ [] →
  (∃ key, (make_key q).1 = inr key) ∧
  query (make_key q).2 = query q ∧
  engines (make_key q).2 = engines q ∧
  categories (make_key q).2 = categories q ∧
  language (make_key q).2 = language q ∧
  safesearch (make_key q).2 = safesearch q ∧
  pageno (make_key q).2 = pageno q ∧
  time_range (make_key q).2 = Some (default "" (time_range q)) ∧
  (time_range q ≠ None → (make_key q).2 = q).
Proof.
  intros Hcat. split.
  - destruct (categories q) as [|c0 cs] eqn:Hc; [done|].
    eexists. by apply make_key_cons with cs.
  - rewrite make_key_object. repeat split.
    intros Ht. destruct q as [qu en ca la sa pa [t|]]; done.
Qed.

Lemma make_key_total_frame_witness :
  (∃ key, (make_key q_no_time_range).1 = inr key) ∧
  time_range (make_key q_no_time_range).2 = Some "".
Proof.
  destruct (make_key_total_frame q_no_time_range) as (Hk & _ & _ & _ & _ & _ & _ & Ht & _).
  - discriminate.
  - split; [exact Hk | exact Ht].
Defined.

(** ** The sorted set *)
Module RedisFacts.
Import Redis.

Lemma zremove_elem member z b :
  b ∈ zremove member z ↔ b.1 ≠ member ∧ b ∈ z.
Proof. unfold zremove. by rewrite list_elem_of_filter. Qed.

Lemma zremove_absent member z : member ∉ z.*1 → zremove member z = z.
Proof.
  unfold zremove. induction z as [|b z IH]; intros Hm; [done|].
  rewrite fmap_cons, not_elem_of_cons in Hm. destruct Hm as [Hb Hz].
  rewrite filter_cons_True by done. by rewrite IH.
Qed.

Lemma zremove_sublist member z : sublist (zremove member z) z.
Proof. apply sublist_filter. Qed.

(** Insertion keeps what is there and adds the new pair. *)
Lemma zinsert_perm a z : zinsert a z ≡ₚ a :: z.
Proof.
  induction z as [|b z IH]; simpl; [done|].
  destruct (zle a b); [done|].
  rewrite IH. apply Permutation_swap.
Qed.

(** A score above all others goes to the end. *)
Lemma zinsert_last member score z :
  Forall (λ b, b.2 < score) z → zinsert (member, score) z = z ++ [(member, score)].
Proof.
  induction 1 as [|b z Hb _ IH]; simpl; [done|].
  unfold zle at 1. simpl.
  assert ((score <? b.2) = false) as -> by lia.
  assert ((score =? b.2) = false) as -> by lia.
  simpl. by rewrite IH.
Qed.

Lemma zadd_elem member score r b :
  b ∈ zset (zadd member score r)
  ↔ b = (member, score) ∨ (b.1 ≠ member ∧ b ∈ zset r).
Proof.
  unfold zadd. simpl. rewrite zinsert_perm, elem_of_cons.
  by rewrite zremove_elem.
Qed.

(** ZRANGE inside the set: the members at ranks [start] to [stop], with
    [stop] cut to the last rank. *)
Lemma zrange_inside start stop r :
  0 ≤ start ≤ stop → start < Z.of_nat (length (zset r)) →
  zrange start stop r
  = (take (Z.to_nat (Z.min stop (Z.of_nat (length (zset r)) - 1) - start + 1))
       (drop (Z.to_nat start) (zset r))).*1.
Proof.
  intros Hs Hl. unfold zrange.
  assert ((start <? 0) = false) as -> by lia.
  assert ((stop <? 0) = false) as -> by lia.
  assert ((start <? 0) = false) as -> by lia.
  assert ((start >? stop) = false) as -> by lia.
  assert ((start >=? Z.of_nat (length (zset r))) = false) as -> by lia.
  simpl. destruct (stop >=? Z.of_nat (length (zset r))) eqn:Hstop;
    do 3 f_equal; lia.
Qed.

End RedisFacts.

(** ** The cache operations *)

Section CacheFacts.

Context {pyobj : Type}.
Variable pickle_dumps : SearchData pyobj → Z → list byte.
Variable pickle_loads : list byte → exn + SearchData pyobj.

Lemma make_key_data_1 (d : SearchData pyobj) :
  (make_key_data d).1 = (make_key (sd_query d)).1.
Proof. unfold make_key_data. by destruct (make_key (sd_query d)). Qed.

Lemma make_key_data_query (d : SearchData pyobj) :
  sd_query (make_key_data d).2 = (make_key (sd_query d)).2.
Proof. unfold make_key_data. by destruct (make_key (sd_query d)). Qed.

Lemma read_eq q key r :
  (make_key q).1 = inr key →
  read pickle_loads q r =
  (match Redis.strings r !! key with
   | None | Some [] => inr None
   | Some b => match pickle_loads b with
               | inl e => inl e
               | inr d => inr (Some d)
               end
   end, r).
Proof.
  intros Hk. unfold read. rewrite Hk.
  unfold mbind, ST_bind, reads, Redis.get. simpl.
  destruct (Redis.strings r !! key) as [[|b0 b]|]; try done.
  by destruct (pickle_loads (b0 :: b)).
Qed.

Lemma read_raise q e r : (make_key q).1 = inl e → read pickle_loads q r = (inl e, r).
Proof. intros Hk. unfold read. by rewrite Hk. Qed.

Lemma save_eq d key r :
  (make_key (sd_query d)).1 = inr key →
  save pickle_dumps d r =
  (inr (make_key_data d).2,
   Redis.set key (pickle_dumps (make_key_data d).2 4)
     (Redis.zadd key (Redis.counter r + 1) (Redis.incr r).2)).
Proof.
  intros Hk. unfold save.
  pose proof (make_key_data_1 d) as H1. rewrite Hk in H1.
  destruct (make_key_data d) as [k d']. simpl in H1. by subst k.
Qed.

Lemma save_raise d e r :
  (make_key (sd_query d)).1 = inl e → save pickle_dumps d r = (inl e, r).
Proof.
  intros Hk. unfold save.
  pose proof (make_key_data_1 d) as H1. rewrite Hk in H1.
  destruct (make_key_data d) as [k d']. simpl in H1. by subst k.
Qed.

Lemma update_eq d key r :
  (make_key (sd_query d)).1 = inr key →
  update pickle_dumps pickle_loads d r =
  match Redis.strings r !! key with
  | None | Some [] => (inl AttributeError, r)
  | Some b =>
      match pickle_loads b with
      | inl e => (inl e, r)
      | inr current =>
          (inr (make_key_data d).2,
           Redis.set key
             (pickle_dumps (refreshed current (make_key_data d).2) 4) r)
      end
  end.
Proof.
  intros Hk. unfold update.
  pose proof (make_key_data_1 d) as H1. rewrite Hk in H1.
  pose proof (make_key_data_query d) as H2.
  destruct (make_key_data d) as [k d']. simpl in H1, H2. subst k.
  unfold mbind, ST_bind.
  rewrite (read_eq _ key).
  2:{ by rewrite H2, make_key_again. }
  destruct (Redis.strings r !! key) as [[|b0 b]|]; try done.
  by destruct (pickle_loads (b0 :: b)).
Qed.

Lemma update_raise d e r :
  (make_key (sd_query d)).1 = inl e → update pickle_dumps pickle_loads d r = (inl e, r).
Proof.
  intros Hk. unfold update.
  pose proof (make_key_data_1 d) as H1. rewrite Hk in H1.
  destruct (make_key_data d) as [k d']. simpl in H1. by subst k.
Qed.

(** *** What [update] writes *)

(** One [update] leaves the counter and the index alone, and the string
    values of all keys but its own. *)
Lemma update_writes d r :
  Redis.counter (update pickle_dumps pickle_loads d r).2 = Redis.counter r ∧
  Redis.zset (update pickle_dumps pickle_loads d r).2 = Redis.zset r ∧
  ∀ k, key_of d ≠ Some k →
       Redis.strings (update pickle_dumps pickle_loads d r).2 !! k
       = Redis.strings r !! k.
Proof.
  unfold key_of.
  destruct ((make_key (sd_query d)).1) as [e|key] eqn:Hk.
  - by rewrite (update_raise _ e).
  - rewrite (update_eq _ key) by done.
    destruct (Redis.strings r !! key) as [[|b0 b]|]; try done.
    destruct (pickle_loads (b0 :: b)); [done|]. simpl.
    repeat split. intros k Hne. apply lookup_insert_ne. congruence.
Qed.

(** An [update] never creates an entry. *)
Lemma update_absent d r k :
  Redis.strings r !! k = None →
  Redis.strings (update pickle_dumps pickle_loads d r).2 !! k = None.
Proof.
  intros Hnone.
  destruct (decide (key_of d = Some k)) as [Heq|Hne].
  - unfold key_of in Heq.
    destruct ((make_key (sd_query d)).1) as [e|key] eqn:Hk; [done|].
    simplify_eq. rewrite (update_eq _ k) by done. by rewrite Hnone.
  - destruct (update_writes d r) as (_ & _ & Hs). by rewrite Hs.
Qed.

(** A [save] writes the string value of its own key only. *)
Lemma save_other d r k :
  key_of d ≠ Some k →
  Redis.strings (save pickle_dumps d r).2 !! k = Redis.strings r !! k.
Proof.
  unfold key_of.
  destruct ((make_key (sd_query d)).1) as [e|key] eqn:Hk; intros Hne.
  - by rewrite (save_raise _ e).
  - rewrite (save_eq _ key) by done. simpl.
    apply lookup_insert_ne. congruence.
Qed.

(** A key no [save] was issued for holds nothing. *)
Lemma never_saved_absent ops r k :
  Redis.strings r !! k = None →
  Forall (λ o, saved_key o ≠ Some k) ops →
  Redis.strings (run_ops pickle_dumps pickle_loads ops r) !! k = None.
Proof.
  unfold run_ops. revert r.
  induction ops as [|o ops IH]; intros r Hnone Hops; [done|].
  apply Forall_cons in Hops as [Ho Hops]. simpl. apply IH; [|done].
  destruct o as [d|d]; simpl in *.
  - by rewrite save_other.
  - by apply update_absent.
Qed.

(** C10: however many entries are refreshed one after another, the
    sequence counter and the ordering index (its members and their
    sequence numbers) stay as they were, and so does the value stored under
    every key that is not the key of one of the refreshed entries. *)
Theorem update_frame (ds : list (SearchData pyobj)) (r : Redis.db) :
  Redis.counter (run_ops pickle_dumps pickle_loads (Update <$> ds) r) = Redis.counter r ∧
  Redis.zset (run_ops pickle_dumps pickle_loads (Update <$> ds) r) = Redis.zset r ∧
  ∀ k, Forall (λ d, key_of d ≠ Some k) ds →
       Redis.strings (run_ops pickle_dumps pickle_loads (Update <$> ds) r) !! k = Redis.strings r !! k.
Proof.
  unfold run_ops. revert r.
  induction ds as [|d ds IH]; intros r; [done|].
  destruct (IH (update pickle_dumps pickle_loads d r).2) as (Hc & Hz & Hs).
  destruct (update_writes d r) as (Hc1 & Hz1 & Hs1).
  split; [|split].
  - etrans; [apply Hc|apply Hc1].
  - etrans; [apply Hz|apply Hz1].
  - intros k [Hd Hds]%Forall_cons. etrans; [by apply Hs|by apply Hs1].
Qed.

(** C3, amended: when no [save] was ever issued for the key of [d],
    [update(d)] raises [AttributeError], the exception of
    [current.results = ...] on the [None] that [read] returned (the code
    has no not-found check and no error of its own for it); the exception
    reaches the caller as the result of the call, and the database is left
    as it was, so no entry is created. *)
Theorem update_never_saved (ops : list (op pyobj)) (d : SearchData pyobj) key :
  (make_key (sd_query d)).1 = inr key →
  Forall (λ o, saved_key o ≠ Some key) ops →
  update pickle_dumps pickle_loads d (run_ops pickle_dumps pickle_loads ops Redis.empty)
  = (inl AttributeError, run_ops pickle_dumps pickle_loads ops Redis.empty).
Proof.
  intros Hk Hops. rewrite (update_eq _ key) by done.
  by rewrite never_saved_absent.
Qed.

(** C4, amended: [read(q)] returns [None] when nothing, or an empty value,
    is stored under the key of [q]; when the stored bytes do not decode,
    the exception of [pickle.loads] is raised to the caller. *)
Theorem read_miss_or_raise (q : SearchQuery) key (r : Redis.db) :
  (make_key q).1 = inr key →
  (Redis.strings r !! key = None → read pickle_loads q r = (inr None, r)) ∧
  (Redis.strings r !! key = Some [] → read pickle_loads q r = (inr None, r)) ∧
  (∀ b e, Redis.strings r !! key = Some b → b ≠ [] →
          pickle_loads b = inl e → read pickle_loads q r = (inl e, r)).
Proof.
  intros Hk. rewrite (read_eq _ key) by done. repeat split.
  - by intros ->.
  - by intros ->.
  - intros [|b0 b] e -> Hb Hl; [done|]. by rewrite Hl.
Qed.

(** *** Sequence numbers *)

Lemma index_ok_empty : index_ok Redis.empty.
Proof. repeat split; simpl; try constructor. by intros b ?%elem_of_nil. Qed.

Lemma index_ok_zadd key r :
  index_ok r →
  index_ok (Redis.zadd key (Redis.counter r + 1) (Redis.incr r).2).
Proof.
  intros (Hle & Hs & Hm). unfold index_ok, Redis.zadd, Redis.incr. simpl.
  assert (∀ b, b ∈ Redis.zremove key (Redis.zset r) → b.2 ≤ Redis.counter r) as Hle'.
  { intros b [_ Hb]%RedisFacts.zremove_elem. by apply Hle. }
  split; [|split].
  - intros b. rewrite RedisFacts.zinsert_perm, elem_of_cons.
    intros [-> | Hb]; simpl; [lia|]. apply Hle' in Hb. lia.
  - rewrite RedisFacts.zinsert_perm, fmap_cons, NoDup_cons. split.
    + intros (b & Hb2 & Hb)%list_elem_of_fmap. apply Hle' in Hb. simpl in Hb2. lia.
    + eapply sublist_NoDup; [exact Hs|].
      apply fmap_sublist, RedisFacts.zremove_sublist.
  - rewrite RedisFacts.zinsert_perm, fmap_cons, NoDup_cons. split.
    + intros (b & Hb1 & [Hne _]%RedisFacts.zremove_elem)%list_elem_of_fmap.
      simpl in Hb1. congruence.
    + eapply sublist_NoDup; [exact Hm|].
      apply fmap_sublist, RedisFacts.zremove_sublist.
Qed.

Lemma index_ok_save d r : index_ok r → index_ok (save pickle_dumps d r).2.
Proof.
  intros Hok. destruct ((make_key (sd_query d)).1) as [e|key] eqn:Hk.
  - by rewrite (save_raise _ e).
  - rewrite (save_eq _ key) by done. by apply index_ok_zadd.
Qed.

Lemma index_ok_update d r :
  index_ok r → index_ok (update pickle_dumps pickle_loads d r).2.
Proof.
  intros Hok. destruct (update_writes d r) as (Hc & Hz & _).
  unfold index_ok. by rewrite Hc, Hz.
Qed.

Lemma index_ok_run_ops ops r : index_ok r → index_ok (run_ops pickle_dumps pickle_loads ops r).
Proof.
  unfold run_ops. revert r. induction ops as [|o ops IH]; intros r Hok; [done|].
  simpl. apply IH. destruct o; [by apply index_ok_save|by apply index_ok_update].
Qed.

(** C5, amended: every [save] that returns allocates a new sequence number,
    the counter plus one, also for a key that was saved before, and the key
    is in the index under that number, which is above every number the
    index held; at all times no two distinct keys have the same sequence
    number, and a key has one sequence number only. *)
Theorem sequence_numbers (ops : list (op pyobj)) (d : SearchData pyobj) key :
  (make_key (sd_query d)).1 = inr key →
  let r := run_ops pickle_dumps pickle_loads ops Redis.empty in
  let r' := (save pickle_dumps d r).2 in
  Redis.counter r' = Redis.counter r + 1 ∧
  (key, Redis.counter r + 1) ∈ Redis.zset r' ∧
  (∀ b, b ∈ Redis.zset r → b.2 < Redis.counter r + 1) ∧
  (∀ k1 k2 s, (k1, s) ∈ Redis.zset r' → (k2, s) ∈ Redis.zset r' → k1 = k2) ∧
  (∀ k s1 s2, (k, s1) ∈ Redis.zset r' → (k, s2) ∈ Redis.zset r' → s1 = s2).
Proof.
  intros Hk r r'.
  assert (index_ok r) as Hok by apply index_ok_run_ops, index_ok_empty.
  assert (index_ok r') as (_ & Hs & Hm) by by apply index_ok_save.
  subst r'. rewrite (save_eq _ key) in * by done. simpl in *.
  split; [done|]. split; [|split; [|split]].
  - rewrite RedisFacts.zinsert_perm. by left.
  - intros b Hb. destruct Hok as (Hle & _). apply Hle in Hb. lia.
  - intros k1 k2 s H1 H2.
    apply list_elem_of_lookup in H1 as [i Hi], H2 as [j Hj].
    assert (i = j) as ->.
    { eapply NoDup_lookup; [exact Hs|..]; by rewrite list_lookup_fmap, ?Hi, ?Hj. }
    congruence.
  - intros k s1 s2 H1 H2.
    apply list_elem_of_lookup in H1 as [i Hi], H2 as [j Hj].
    assert (i = j) as ->.
    { eapply NoDup_lookup; [exact Hm|..]; by rewrite list_lookup_fmap, ?Hi, ?Hj. }
    congruence.
Qed.

(** *** Batches *)

(** The contract of pickle: a protocol-4 pickle of an entry is not empty
    and loads back to the entry. *)
Hypothesis pickle_round_trip : ∀ d, pickle_loads (pickle_dumps d 4) = inr d.
Hypothesis pickle_nonempty : ∀ d, pickle_dumps d 4 ≠ [].

Lemma keyed_key_of (d : SearchData pyobj) k : keyed d k → key_of d = Some k.
Proof. unfold keyed, key_of. by intros ->. Qed.

Lemma saves_other ds ks k r :
  Forall2 keyed ds ks → k ∉ ks →
  Redis.strings (run_ops pickle_dumps pickle_loads (Save <$> ds) r) !! k = Redis.strings r !! k.
Proof.
  intros Hks. revert r. unfold run_ops.
  induction Hks as [|d k0 ds ks Hd _ IH]; intros r Hk; [done|].
  apply not_elem_of_cons in Hk as [Hne Hk].
  rewrite fmap_cons. simpl. rewrite IH by done.
  apply save_other. rewrite (keyed_key_of d k0) by done. congruence.
Qed.

(** After saves under distinct keys every key holds the pickle of its
    entry. *)
Lemma saves_strings ds ks r :
  Forall2 keyed ds ks → NoDup ks →
  Forall2 (λ d k, Redis.strings (run_ops pickle_dumps pickle_loads (Save <$> ds) r) !! k
                  = Some (pickle_dumps (make_key_data d).2 4)) ds ks.
Proof.
  intros Hks. revert r.
  induction Hks as [|d k ds ks Hd Hks IH]; intros r Hnd; [constructor|].
  apply NoDup_cons in Hnd as [Hk Hnd]. constructor.
  - unfold run_ops. rewrite fmap_cons. simpl.
    pose proof (saves_other ds ks k (save pickle_dumps d r).2 Hks Hk) as Ho.
    unfold run_ops in Ho. rewrite Ho.
    rewrite (save_eq _ k) by done. simpl. apply lookup_insert_eq.
  - apply (IH (save pickle_dumps d r).2 Hnd).
Qed.

(** ... and the index lists the keys in the order of the saves, numbered
    from the counter on. *)
Lemma saves_index ds ks r :
  Forall2 keyed ds ks → NoDup ks →
  (∀ k, k ∈ ks → k ∉ (Redis.zset r).*1) →
  (∀ b, b ∈ Redis.zset r → b.2 ≤ Redis.counter r) →
  Redis.zset (run_ops pickle_dumps pickle_loads (Save <$> ds) r)
  = Redis.zset r ++ zip ks (seqZ (Redis.counter r + 1) (Z.of_nat (length ks))).
Proof.
  intros Hks. revert r. unfold run_ops.
  induction Hks as [|d k ds ks Hd Hks IH]; intros r Hnd Hfresh Hle.
  - simpl. by rewrite app_nil_r.
  - apply NoDup_cons in Hnd as [Hk Hnd].
    rewrite fmap_cons. simpl foldl.
    assert (Redis.zset (save pickle_dumps d r).2
            = Redis.zset r ++ [(k, Redis.counter r + 1)]) as Hz.
    { rewrite (save_eq _ k) by done. simpl.
      rewrite RedisFacts.zremove_absent by (apply Hfresh; by left).
      apply RedisFacts.zinsert_last, Forall_forall.
      intros b Hb. apply Hle in Hb. lia. }
    assert (Redis.counter (save pickle_dumps d r).2 = Redis.counter r + 1) as Hc.
    { by rewrite (save_eq _ k). }
    rewrite IH; [|done|..].
    + rewrite Hz, Hc, <-app_assoc. f_equal. simpl.
      rewrite (seqZ_cons _ (Z.of_nat (S (length ks)))) by lia. simpl.
      do 3 f_equal; lia.
    + intros k' Hk'. rewrite Hz, fmap_app, not_elem_of_app. split.
      * apply Hfresh. by right.
      * simpl. intros ->%list_elem_of_singleton. done.
    + intros b. rewrite Hz, Hc, elem_of_app, list_elem_of_singleton.
      intros [Hb | ->]; [apply Hle in Hb; lia | simpl; lia].
Qed.

(** Loading the pickles of entries gives back their stored queries. *)
Lemma load_rows_dumps ds :
  load_rows pickle_loads
    ((λ d, Some (pickle_dumps (make_key_data d).2 4)) <$> ds)
  = inr (stored_query <$> ds).
Proof.
  induction ds as [|d ds IH]; [done|].
  rewrite !fmap_cons. simpl. rewrite pickle_round_trip, IH. do 2 f_equal.
  unfold stored_query. rewrite make_key_data_query.
  by destruct ((make_key (sd_query d)).2).
Qed.

Lemma pipeline_get_stored ds ks r :
  Forall2 (λ d k, Redis.strings r !! k
                  = Some (pickle_dumps (make_key_data d).2 4)) ds ks →
  Redis.pipeline_get ks r
  = (λ d, Some (pickle_dumps (make_key_data d).2 4)) <$> ds.
Proof.
  unfold Redis.pipeline_get, Redis.get.
  induction 1 as [|d k ds ks Hd _ IH]; [done|].
  rewrite fmap_cons. simpl. f_equal; [exact Hd|exact IH].
Qed.

Lemma get_twenty_queries_eq x r :
  Redis.zrange x (x + 20) r ≠ [] →
  get_twenty_queries pickle_loads x r
  = (load_rows pickle_loads
       (Redis.pipeline_get (Redis.zrange x (x + 20) r) r), r).
Proof.
  intros Hne. unfold get_twenty_queries, mbind, ST_bind, reads. simpl.
  destruct (Redis.zrange x (x + 20) r) as [|k keys] eqn:Hkeys; [done|].
  by destruct (load_rows _ _).
Qed.

(** The window [get_twenty_queries(x)] returns after saves under distinct
    keys into an empty database: the entries at ranks [x] to [x + 20], both
    included, that is up to 21 of them. *)
Lemma get_twenty_queries_window ds ks x :
  Forall2 keyed ds ks → NoDup ks →
  0 ≤ x < Z.of_nat (length ds) →
  let r := run_ops pickle_dumps pickle_loads (Save <$> ds) Redis.empty in
  get_twenty_queries pickle_loads x r
  = (inr (stored_query <$>
            take (Z.to_nat (Z.min 21 (Z.of_nat (length ds) - x)))
              (drop (Z.to_nat x) ds)), r).
Proof.
  intros Hks Hnd Hx r.
  pose proof (Forall2_length _ _ _ Hks) as Hlen.
  assert (Redis.zset r = zip ks (seqZ 1 (Z.of_nat (length ks)))) as Hz.
  { subst r. rewrite (saves_index ds ks Redis.empty Hks Hnd); [done|..].
    - intros k _. simpl. apply not_elem_of_nil.
    - by intros b ?%elem_of_nil. }
  assert (length (Redis.zset r) = length ds) as Hzl.
  { rewrite Hz, length_zip, length_seqZ. lia. }
  assert ((Redis.zset r).*1 = ks) as Hfst.
  { rewrite Hz. apply fst_zip. rewrite length_seqZ. lia. }
  assert (Redis.zrange x (x + 20) r
          = take (Z.to_nat (Z.min 21 (Z.of_nat (length ds) - x)))
              (drop (Z.to_nat x) ks)) as Hrange.
  { rewrite RedisFacts.zrange_inside by lia.
    rewrite fmap_take, fmap_drop, Hfst, Hzl. f_equal. lia. }
  rewrite get_twenty_queries_eq.
  2:{ rewrite Hrange. intros Hnil%(f_equal length).
      rewrite length_take, length_drop in Hnil. simpl in Hnil. lia. }
  rewrite Hrange. f_equal.
  rewrite (pipeline_get_stored
             (take (Z.to_nat (Z.min 21 (Z.of_nat (length ds) - x)))
                (drop (Z.to_nat x) ds))).
  - apply load_rows_dumps.
  - apply Forall2_take, Forall2_drop. by apply saves_strings.
Qed.

(** C2, what the code does: after 25 saves under distinct keys into an
    empty database, [get_twenty_queries(0)] returns 21 queries, those of the
    first 21 saves in the order of their sequence numbers, and
    [get_twenty_queries(20)] returns 5 queries, those of saves 21 to 25, of
    which the first was returned by the first call already. *)
Theorem get_twenty_queries_returns_21 (ds : list (SearchData pyobj)) ks :
  length ds = 25%nat → Forall2 keyed ds ks → NoDup ks →
  let r := run_ops pickle_dumps pickle_loads (Save <$> ds) Redis.empty in
  get_twenty_queries pickle_loads 0 r = (inr (stored_query <$> take 21 ds), r) ∧
  length (stored_query <$> take 21 ds) = 21%nat ∧
  get_twenty_queries pickle_loads 20 r = (inr (stored_query <$> drop 20 ds), r) ∧
  length (stored_query <$> drop 20 ds) = 5%nat ∧
  (stored_query <$> take 21 ds) !! 20%nat = (stored_query <$> drop 20 ds) !! 0%nat.
Proof.
  intros Hlen Hks Hnd r. split; [|split; [|split; [|split]]].
  - subst r. rewrite (get_twenty_queries_window ds ks 0) by (done || lia).
    rewrite Hlen. done.
  - rewrite length_fmap, length_take. lia.
  - subst r. rewrite (get_twenty_queries_window ds ks 20) by (done || lia).
    rewrite Hlen. simpl. rewrite take_ge; [done|]. rewrite length_drop. lia.
  - rewrite length_fmap, length_drop. lia.
  - rewrite !list_lookup_fmap, lookup_take_lt, lookup_drop by lia. done.
Qed.

(** *** Refreshing a saved entry *)

Lemma read_stored q key r d :
  (make_key q).1 = inr key →
  Redis.strings r !! key = Some (pickle_dumps d 4) →
  read pickle_loads q r = (inr (Some d), r).
Proof.
  intros Hk Hs. rewrite (read_eq _ key), Hs by done.
  pose proof (pickle_nonempty d) as Hne. pose proof (pickle_round_trip d) as Hl.
  destruct (pickle_dumps d 4) as [|b0 b]; [done|]. by rewrite Hl.
Qed.

Lemma update_stored d key r current :
  keyed d key →
  Redis.strings r !! key = Some (pickle_dumps current 4) →
  update pickle_dumps pickle_loads d r
  = (inr (make_key_data d).2,
     Redis.set key (pickle_dumps (refreshed current (make_key_data d).2) 4) r).
Proof.
  intros Hk Hs. rewrite (update_eq _ key), Hs by done.
  pose proof (pickle_nonempty current) as Hne.
  pose proof (pickle_round_trip current) as Hl.
  destruct (pickle_dumps current 4) as [|b0 b]; [done|]. by rewrite Hl.
Qed.

Lemma make_key_data_outputs (d : SearchData pyobj) :
  refreshed (make_key_data d).2 d = (make_key_data d).2.
Proof. unfold make_key_data. by destruct (make_key (sd_query d)). Qed.

(** C8: after [save(e)] and then [update(e2)] for an [e2] that has the key
    of [e] (an [e2] with the query of [e], or one that differs from it in
    what the key does not show, such as the categories after the first),
    both calls return and [read] of the query of [e] returns an entry whose
    eight outputs are those of [e2] and whose identity is the one [save]
    stored, not that of [e2]: it is the identity [e] itself holds after the
    save, the fields of [e] with an absent time range filled in as the
    empty text by [make_key]. *)
Theorem update_replaces_outputs (e e2 : SearchData pyobj) key (r : Redis.db) :
  keyed e key → keyed e2 key →
  ∃ e' u r1 r2 got,
    save pickle_dumps e r = (inr e', r1) ∧
    update pickle_dumps pickle_loads e2 r1 = (inr u, r2) ∧
    read pickle_loads (sd_query e) r2 = (inr (Some got), r2) ∧
    results got = results e2 ∧ paging got = paging e2 ∧
    results_number got = results_number e2 ∧ answers got = answers e2 ∧
    corrections got = corrections e2 ∧ infoboxes got = infoboxes e2 ∧
    suggestions got = suggestions e2 ∧
    unresponsive_engines got = unresponsive_engines e2 ∧
    sd_query got = sd_query e' ∧
    sd_query e' =
      set_time_range (Some (default "" (time_range (sd_query e)))) (sd_query e).
Proof.
  intros Hk Hk2.
  eexists _, _, _, _, _. split; [by apply save_eq|]. split.
  { eapply update_stored; [done|]. simpl. apply lookup_insert_eq. }
  split.
  { eapply read_stored; [done|]. simpl. apply lookup_insert_eq. }
  pose proof (make_key_data_outputs e2) as Ho.
  unfold refreshed in *. simpl.
  destruct (make_key_data e2).2 as [q2 o1 o2 o3 o4 o5 o6 o7 o8] eqn:He2.
  simpl in *. injection Ho as <- <- <- <- <- <- <- <-.
  repeat split. by rewrite make_key_data_query, make_key_object.
Qed.

End CacheFacts.

(** ** The refresh loop *)

Section RefreshFacts.

Context {pyobj : Type}.
Variable pickle_dumps : SearchData pyobj → Z → list byte.
Variable pickle_loads : list byte → exn + SearchData pyobj.
Variable time_at : nat → Q.
Variable is_set_at : nat → bool.
Variable upgrade_history : Z.
Variable search_data : SearchQuery → SearchData pyobj.

Lemma wait_updating_eq start_time w :
  wait_updating time_at upgrade_history start_time w
  = (inr tt,
     {| redis := redis w; clock_reads := S (clock_reads w);
        event_reads := event_reads w;
        waits := waits w ++
          (if 0 <? upgrade_history - py_int (time_at (clock_reads w) - start_time)
           then [upgrade_history - py_int (time_at (clock_reads w) - start_time)]
           else []) |}).
Proof.
  unfold wait_updating, mbind, ST_bind, time. simpl.
  destruct (0 <? _); simpl; [done|]. by rewrite app_nil_r.
Qed.

(** C9, amended: when a batch has been fetched and refreshed without the
    loop being left, the pass goes on to wait exactly when the batch holds
    fewer than 20 queries.  It then sets the cursor to 0, reads the clock,
    and waits on the event for the target duration minus the elapsed time
    truncated to whole seconds if that is positive, and does not wait at
    all if it is not; after that it reads the clock again for the start
    time of the next cycle.  With 20 queries or more it neither waits nor
    reads the clock: the cursor advances by the size of the batch and the
    start time stays. *)
Theorem loop_body_transition (x : Z) (start_time : Q) (w w1 w2 : world) queries :
  on_redis (get_twenty_queries pickle_loads x) w = (inr queries, w1) →
  refresh_queries pickle_dumps pickle_loads is_set_at search_data queries w1
  = (inr false, w2) →
  loop_body pickle_dumps pickle_loads time_at is_set_at upgrade_history
    search_data x start_time w
  = if Z.of_nat (length queries) <? 20
    then (inr (Some (0, time_at (S (clock_reads w2)))), after_wait time_at upgrade_history start_time w2)
    else (inr (Some (x + Z.of_nat (length queries), start_time)), w2).
Proof.
  intros Hbatch Hrefresh. unfold loop_body, mbind, ST_bind.
  rewrite Hbatch, Hrefresh.
  destruct (Z.of_nat (length queries) <? 20); [|done].
  by rewrite wait_updating_eq.
Qed.

End RefreshFacts.

(** ** Runs on concrete databases *)

Module Runs.
Import PickleModel PickleModelFacts Samples.

Lemma update_never_saved_witness :
  update dumps loads (entry q_page2 "new")
    (run_ops dumps loads [Save (entry q_page1 "old")] Redis.empty)
  = (inl AttributeError,
     run_ops dumps loads [Save (entry q_page1 "old")] Redis.empty).
Proof.
  apply (update_never_saved dumps loads
           [Save (entry q_page1 "old")] (entry q_page2 "new") key_page2).
  - reflexivity.
  - repeat constructor. vm_compute. discriminate.
Defined.

(** C3, as stated, fails: the failure of [update] for an entry never saved
    is no error of its own that tells the caller the entry is missing.  It
    is the [AttributeError] of an attribute set on [None], and a key that is
    in the database, with an empty value, raises the very same. *)
Lemma update_missing_is_attribute_error :
  Redis.get key_rust Redis.empty = None ∧
  update dumps loads (entry q_no_time_range "new") Redis.empty
  = (inl AttributeError, Redis.empty) ∧
  Redis.get key_rust (Redis.set key_rust [] Redis.empty) = Some [] ∧
  update dumps loads (entry q_no_time_range "new")
    (Redis.set key_rust [] Redis.empty)
  = (inl AttributeError, Redis.set key_rust [] Redis.empty).
Proof. repeat split; by vm_compute. Qed.

(** C4, as stated, fails: bytes that do not decode make [read] raise. *)
Lemma read_corrupt_raises :
  Redis.get key_rust corrupt_db = Some [x00] ∧
  loads [x00] = inl UnpicklingError ∧
  (read loads q_no_time_range corrupt_db).1 = inl UnpicklingError.
Proof. repeat split; by vm_compute. Qed.

Lemma read_miss_or_raise_witness :
  read loads q_no_time_range Redis.empty = (inr None, Redis.empty) ∧
  read loads q_no_time_range corrupt_db = (inl UnpicklingError, corrupt_db).
Proof.
  split.
  - destruct (read_miss_or_raise loads q_no_time_range key_rust Redis.empty)
      as (Hnone & _); [reflexivity|].
    apply Hnone. reflexivity.
  - destruct (read_miss_or_raise loads q_no_time_range key_rust corrupt_db)
      as (_ & _ & Hraise); [reflexivity|].
    apply (Hraise [x00]); [reflexivity|discriminate|reflexivity].
Defined.

(** C5, as stated, fails: a second [save] under the same key allocates a
    new sequence number, and the key moves to it. *)
Lemma save_again_new_number :
  Redis.zset (run_ops dumps loads [Save (entry q_no_time_range "old")] Redis.empty)
  = [(key_rust, 1)] ∧
  Redis.zset (run_ops dumps loads
                [Save (entry q_no_time_range "old");
                 Save (entry q_no_time_range "old")] Redis.empty)
  = [(key_rust, 2)].
Proof. split; by vm_compute. Qed.

Lemma sequence_numbers_witness :
  Redis.counter
    (save dumps (entry q_no_time_range "old")
       (run_ops dumps loads [Save (entry q_no_time_range "old")] Redis.empty)).2
  = Redis.counter
      (run_ops dumps loads [Save (entry q_no_time_range "old")] Redis.empty) + 1.
Proof.
  apply (sequence_numbers dumps loads [Save (entry q_no_time_range "old")]
           (entry q_no_time_range "old") key_rust).
  reflexivity.
Defined.

Lemma get_twenty_queries_returns_21_witness :
  (get_twenty_queries loads 0
     (run_ops dumps loads (Save <$> entries25) Redis.empty)).1
  = inr (page <$> seqZ 1 21).
Proof.
  destruct (get_twenty_queries_returns_21 dumps loads loads_dumps
              entries25 keys25) as (H0 & _).
  - reflexivity.
  - apply (bool_decide_unpack _). by vm_compute.
  - apply (bool_decide_unpack _). by vm_compute.
  - rewrite H0. reflexivity.
Defined.

Lemma update_replaces_outputs_witness :
  ∃ e' u r1 r2 got,
    save dumps (entry q_general_images "old") Redis.empty = (inr e', r1) ∧
    update dumps loads (entry q_general_videos "new") r1 = (inr u, r2) ∧
    read loads q_general_images r2 = (inr (Some got), r2) ∧
    results got = "new" ∧ paging got = "new" ∧
    results_number got = "new" ∧ answers got = "new" ∧
    corrections got = "new" ∧ infoboxes got = "new" ∧
    suggestions got = "new" ∧ unresponsive_engines got = "new" ∧
    sd_query got = sd_query e' ∧
    sd_query e' = set_time_range (Some "") q_general_images.
Proof.
  apply (update_replaces_outputs dumps loads loads_dumps dumps_nonempty
           (entry q_general_images "old") (entry q_general_videos "new")
           key_rust Redis.empty); reflexivity.
Defined.

(** C9, as stated, fails: 9.5 seconds into a cycle of 10 the thread waits
    for 1 second, not for the 0.5 seconds that remain. *)
Lemma wait_is_whole_seconds :
  waits (loop_body dumps loads clock_9_5 never_set 10 search_new
           0 0 one_entry_world).2 = [1] ∧
  ¬ (inject_Z 1 == inject_Z 10 - (clock_9_5 0 - 0))%Q.
Proof. split; [by vm_compute|]. by vm_compute. Qed.

Lemma loop_body_transition_witness :
  (loop_body dumps loads clock_from_4 never_set 10 search_new
     0 0 one_entry_world).1 = inr (Some (0, clock_from_4 1)) ∧
  waits (loop_body dumps loads clock_from_4 never_set 10 search_new
           0 0 one_entry_world).2 = [6].
Proof.
  rewrite (loop_body_transition dumps loads clock_from_4 never_set 10 search_new
             0 0 one_entry_world one_entry_world
             (refresh_queries dumps loads never_set search_new
                [set_time_range (Some "") q_no_time_range] one_entry_world).2
             [set_time_range (Some "") q_no_time_range]).
  - split; vm_compute; reflexivity.
  - vm_compute; reflexivity.
  - vm_compute; reflexivity.
Defined.

Lemma update_frame_witness :
  Redis.zset (run_ops dumps loads [Update (entry q_no_time_range "new")]
                (redis one_entry_world))
  = [(key_rust, 1)] ∧
  Redis.counter (run_ops dumps loads [Update (entry q_no_time_range "new")]
                   (redis one_entry_world)) = 1.
Proof.
  destruct (update_frame dumps loads [entry q_no_time_range "new"]
              (redis one_entry_world)) as (Hc & Hz & _).
  split; [etrans; [exact Hz|]|etrans; [exact Hc|]]; vm_compute; reflexivity.
Defined.

(** The scenario of three saves: the batch lists the three queries in the
    order of their saves; the pass refreshes them, finds fewer than 20,
    sets the cursor to 0 and waits for the 6 seconds left of the cycle. *)
Example three_saves_then_wait :
  let w := {| redis := run_ops dumps loads
                         (Save <$> [entry (page 1) "old"; entry (page 2) "old";
                                    entry (page 3) "old"]) Redis.empty;
              clock_reads := 0; event_reads := 0; waits := [] |} in
  (get_twenty_queries loads 0 (redis w)).1 = inr [page 1; page 2; page 3] ∧
  (loop_body dumps loads clock_from_4 never_set 10 search_new 0 0 w).1
  = inr (Some (0, clock_from_4 1)) ∧
  waits (loop_body dumps loads clock_from_4 never_set 10 search_new 0 0 w).2 = [6] ∧
  (read loads (page 2)
     (redis (loop_body dumps loads clock_from_4 never_set 10 search_new 0 0 w).2)).1
  = inr (Some (entry (page 2) "new")).
Proof. repeat split; vm_compute; reflexivity. Qed.

(** With the event set from the start the loop is left at once. *)
Example update_results_cancelled :
  (update_results dumps loads clock_from_4 (λ _, true) 10 search_new 1
     one_entry_world).1 = inr (Some tt).
Proof. vm_compute; reflexivity. Qed.

End Runs.

(** ** More on the cache key *)

(** X1: a query without a time range and the same query with the empty
    text as time range get the same key, and [make_key] leaves both in the
    same state. *)
Theorem make_key_none_is_empty (q : SearchQuery) :
  make_key (set_time_range None q) = make_key (set_time_range (Some "") q).
Proof. unfold make_key. simpl. by destruct (categories q). Qed.

(** X2: of the categories only the first one enters the key: two queries
    with the same first category and the same other attributes get the same
    key, whatever further categories they list. *)
Theorem make_key_first_category_only (q1 q2 : SearchQuery) c0 rest1 rest2 :
  categories q1 = c0 :: rest1 → categories q2 = c0 :: rest2 →
  query q1 = query q2 → engines q1 = engines q2 → language q1 = language q2 →
  safesearch q1 = safesearch q2 → pageno q1 = pageno q2 →
  time_range q1 = time_range q2 →
  (make_key q1).1 = (make_key q2).1.
Proof.
  intros H1 H2 Hq He Hl Hs Hp Ht.
  rewrite (make_key_cons q1 c0 rest1), (make_key_cons q2 c0 rest2) by done.
  unfold key_text. by rewrite Hq, He, Hl, Hs, Hp, Ht.
Qed.

(** X3: [make_key] raises exactly for a query with no category, and what it
    raises then is [IndexError]. *)
Theorem make_key_raises_iff (q : SearchQuery) (e : exn) :
  (make_key q).1 = inl e ↔ categories q = [] ∧ e = IndexError.
Proof.
  split.
  - destruct (categories q) as [|c0 cs] eqn:Hc.
    + rewrite make_key_nil by done. intros [= <-]. done.
    + by rewrite (make_key_cons q c0 cs).
  - intros [Hc ->]. by apply make_key_nil.
Qed.

(** X4: every key [make_key] returns starts with [SEARCH_HISTORY:], so it
    is neither the key of the sequence counter nor the key of the ordering
    index. *)
Theorem make_key_key_space (q : SearchQuery) key :
  (make_key q).1 = inr key →
  (∃ rest, key = "SEARCH_HISTORY:" +:+ rest) ∧
  key ≠ "SEARCH_HISTORY_INDEX" ∧ key ≠ "SEARCH_HISTORY_KEYS".
Proof.
  intros (c0 & cs & _ & ->)%make_key_inr. unfold key_text.
  split; [by eexists|]. split; discriminate.
Qed.

(** ** More on the cache operations *)

Section MoreCacheFacts.

Context {pyobj : Type}.
Variable pickle_dumps : SearchData pyobj → Z → list byte.
Variable pickle_loads : list byte → exn + SearchData pyobj.

(** X5: [read] and [get_twenty_queries] change nothing in the database,
    whether they return or raise. *)
Theorem reads_leave_database (q : SearchQuery) (x : Z) (r : Redis.db) :
  (read pickle_loads q r).2 = r ∧ (get_twenty_queries pickle_loads x r).2 = r.
Proof.
  split.
  - destruct ((make_key q).1) as [e|key] eqn:Hk.
    + by rewrite (read_raise _ _ e).
    + by rewrite (read_eq _ _ key).
  - unfold get_twenty_queries, mbind, ST_bind, reads. simpl.
    destruct (Redis.zrange x (x + 20) r); [done|].
    by destruct (load_rows _ _).
Qed.

(** X6: for an entry that lists no category [read], [save] and [update]
    all raise [IndexError] and leave the database as it was: no sequence
    number is spent on it. *)
Theorem no_category_raises (d : SearchData pyobj) (r : Redis.db) :
  categories (sd_query d) = [] →
  read pickle_loads (sd_query d) r = (inl IndexError, r) ∧
  save pickle_dumps d r = (inl IndexError, r) ∧
  update pickle_dumps pickle_loads d r = (inl IndexError, r).
Proof.
  intros Hc%make_key_nil. split; [|split].
  - by apply read_raise.
  - by apply save_raise.
  - by apply update_raise.
Qed.

Lemma zrange_past_end x stop r :
  Z.of_nat (length (Redis.zset r)) ≤ x → Redis.zrange x stop r = [].
Proof.
  intros Hx. unfold Redis.zrange.
  assert ((x <? 0) = false) as -> by lia.
  assert ((x <? 0) = false) as -> by lia.
  assert ((x >=? Z.of_nat (length (Redis.zset r))) = true) as -> by lia.
  by rewrite orb_true_r.
Qed.

(** X7: from a cursor at or past the number of index members, in
    particular on an empty cache, [get_twenty_queries] returns the empty
    list and does not raise. *)
Theorem get_twenty_queries_past_end (x : Z) (r : Redis.db) :
  Z.of_nat (length (Redis.zset r)) ≤ x →
  get_twenty_queries pickle_loads x r = (inr [], r).
Proof.
  intros Hx. unfold get_twenty_queries, mbind, ST_bind, reads. simpl.
  by rewrite zrange_past_end.
Qed.

Lemma zrange_length x r : (length (Redis.zrange x (x + 20) r) ≤ 21)%nat.
Proof.
  unfold Redis.zrange. cbv zeta.
  repeat match goal with
         | |- context [if ?b then _ else _] =>
             lazymatch b with
             | context [if _ then _ else _] => fail
             | _ => destruct b eqn:?
             end
         end; simpl; rewrite ?length_fmap, ?length_take; lia.
Qed.

Lemma load_rows_length rows qs :
  load_rows pickle_loads rows = inr qs → length qs = length rows.
Proof.
  revert qs. induction rows as [|row rows IH]; intros qs; simpl.
  - by intros [= <-].
  - destruct row as [b|]; [|done].
    destruct (pickle_loads b); [done|].
    destruct (load_rows pickle_loads rows); [done|].
    intros [= <-]. simpl. f_equal. by apply IH.
Qed.

(** X8: whatever the database holds and whatever the cursor is, a batch
    [get_twenty_queries] returns never holds more than 21 queries. *)
Theorem get_twenty_queries_at_most_21 (x : Z) (r : Redis.db) qs :
  (get_twenty_queries pickle_loads x r).1 = inr qs → (length qs ≤ 21)%nat.
Proof.
  destruct (Redis.zrange x (x + 20) r) as [|k keys] eqn:Hkeys.
  - unfold get_twenty_queries, mbind, ST_bind, reads. simpl. rewrite Hkeys.
    intros [= <-]. simpl. lia.
  - rewrite get_twenty_queries_eq by by rewrite Hkeys.
    simpl. intros ->%load_rows_length.
    unfold Redis.pipeline_get. rewrite length_map. apply zrange_length.
Qed.

Lemma load_rows_returns rows :
  (∃ qs, load_rows pickle_loads rows = inr qs)
  ↔ Forall (λ row, ∃ b d, row = Some b ∧ pickle_loads b = inr d) rows.
Proof.
  induction rows as [|row rows IH]; simpl.
  - split; [constructor|by eexists].
  - rewrite Forall_cons, <-IH. split.
    + intros [qs Hqs]. destruct row as [b|]; [|done].
      destruct (pickle_loads b) as [|d] eqn:Hb; [done|].
      destruct (load_rows pickle_loads rows); [done|]. eauto 6.
    + intros [(b & d & -> & ->) [qs ->]]. by eexists.
Qed.

(** X9: a batch is all or nothing: [get_twenty_queries] returns exactly
    when every index member in its window has a value that decodes; one
    member without a value, or with a value that does not decode, makes the
    call raise instead of being skipped. *)
Theorem get_twenty_queries_returns_iff (x : Z) (r : Redis.db) :
  (∃ qs, (get_twenty_queries pickle_loads x r).1 = inr qs)
  ↔ Forall (λ k, ∃ b d, Redis.strings r !! k = Some b ∧ pickle_loads b = inr d)
      (Redis.zrange x (x + 20) r).
Proof.
  destruct (Redis.zrange x (x + 20) r) as [|k keys] eqn:Hkeys.
  - unfold get_twenty_queries, mbind, ST_bind, reads. simpl. rewrite Hkeys.
    split; [constructor|by eexists].
  - rewrite get_twenty_queries_eq by by rewrite Hkeys.
    rewrite Hkeys. unfold fst. rewrite load_rows_returns.
    unfold Redis.pipeline_get, Redis.get. by rewrite Forall_map.
Qed.

End MoreCacheFacts.

(** ** Invariants of the database *)

Section StoreInvariants.

Context {pyobj : Type}.
Variable pickle_dumps : SearchData pyobj → Z → list byte.
Variable pickle_loads : list byte → exn + SearchData pyobj.

Lemma members_zadd key score r k :
  k ∈ (Redis.zset (Redis.zadd key score r)).*1 ↔ k = key ∨ k ∈ (Redis.zset r).*1.
Proof.
  unfold Redis.zadd. simpl.
  rewrite RedisFacts.zinsert_perm, fmap_cons, elem_of_cons. simpl.
  rewrite !list_elem_of_fmap. split.
  - intros [-> | (b & -> & [_ Hb]%RedisFacts.zremove_elem)]; eauto.
  - intros [-> | (b & -> & Hb)]; [by left|].
    destruct (decide (b.1 = key)) as [<-|Hne]; [by left|].
    right. exists b. by rewrite RedisFacts.zremove_elem.
Qed.

Lemma stored_save d r :
  (∀ k, k ∈ (Redis.zset r).*1 ↔ is_Some (Redis.strings r !! k)) →
  ∀ k, k ∈ (Redis.zset (save pickle_dumps d r).2).*1
       ↔ is_Some (Redis.strings (save pickle_dumps d r).2 !! k).
Proof.
  intros Hr k. destruct ((make_key (sd_query d)).1) as [e|key] eqn:Hk.
  - rewrite (save_raise _ _ e) by done. apply Hr.
  - rewrite (save_eq _ _ key) by done. simpl.
    rewrite lookup_insert_is_Some', <-Hr.
    pose proof (members_zadd key (Redis.counter r + 1) (Redis.incr r).2 k) as Hz.
    simpl in Hz. rewrite Hz.
    split; (intros [->|?]; [by left|by right]).
Qed.

Lemma stored_update d r :
  (∀ k, k ∈ (Redis.zset r).*1 ↔ is_Some (Redis.strings r !! k)) →
  ∀ k, k ∈ (Redis.zset (update pickle_dumps pickle_loads d r).2).*1
       ↔ is_Some (Redis.strings (update pickle_dumps pickle_loads d r).2 !! k).
Proof.
  intros Hr k. destruct ((make_key (sd_query d)).1) as [e|key] eqn:Hk.
  - rewrite (update_raise _ _ _ e) by done. apply Hr.
  - rewrite (update_eq _ _ _ key) by done.
    destruct (Redis.strings r !! key) as [[|b0 b]|] eqn:Hs; try apply Hr.
    destruct (pickle_loads (b0 :: b)); [apply Hr|]. simpl.
    rewrite lookup_insert_is_Some', Hr. split; [auto|].
    intros [<- | ?]; [|done]. by rewrite Hs.
Qed.

(** X10: after any sequence of [save] and [update] calls on an empty
    database, the members of the ordering index are exactly the keys that
    hold a value: every saved entry can be found through the index, and the
    index lists no key without a value. *)
Theorem index_members_are_stored (ops : list (op pyobj)) (k : string) :
  k ∈ (Redis.zset (run_ops pickle_dumps pickle_loads ops Redis.empty)).*1
  ↔ is_Some (Redis.strings (run_ops pickle_dumps pickle_loads ops Redis.empty) !! k).
Proof.
  revert k. unfold run_ops.
  assert (∀ k, k ∈ (Redis.zset Redis.empty).*1
               ↔ is_Some (Redis.strings Redis.empty !! k)) as H0.
  { intros k. simpl. rewrite lookup_empty, elem_of_nil. split; [done|].
    by intros [? ?]. }
  revert H0. generalize Redis.empty.
  induction ops as [|o ops IH]; intros r Hr; [done|].
  simpl. apply IH. destruct o as [d|d]; simpl.
  - by apply stored_save.
  - by apply stored_update.
Qed.

Lemma sorted_zremove member z :
  StronglySorted (λ a b : string * Z, a.2 < b.2) z →
  StronglySorted (λ a b : string * Z, a.2 < b.2) (Redis.zremove member z).
Proof.
  unfold Redis.zremove. induction 1 as [|a z Hz IH Ha]; [constructor|].
  rewrite filter_cons. case_decide; [|done].
  constructor; [done|]. rewrite Forall_forall in *.
  intros b [_ Hb]%list_elem_of_filter. by apply Ha.
Qed.

Lemma sorted_save d r :
  index_ok r →
  StronglySorted (λ a b : string * Z, a.2 < b.2) (Redis.zset r) →
  StronglySorted (λ a b : string * Z, a.2 < b.2)
    (Redis.zset (save pickle_dumps d r).2).
Proof.
  intros (Hle & _) Hs. destruct ((make_key (sd_query d)).1) as [e|key] eqn:Hk.
  - by rewrite (save_raise _ _ e).
  - rewrite (save_eq _ _ key) by done. simpl.
    assert (Forall (λ b : string * Z, b.2 < Redis.counter r + 1)
              (Redis.zremove key (Redis.zset r))) as Hlt.
    { apply Forall_forall. intros b [_ Hb]%RedisFacts.zremove_elem.
      apply Hle in Hb. lia. }
    rewrite RedisFacts.zinsert_last by done.
    apply StronglySorted_app. split; [|split].
    + intros a b Ha ->%list_elem_of_singleton. simpl.
      rewrite Forall_forall in Hlt. by apply Hlt.
    + by apply sorted_zremove.
    + repeat constructor.
Qed.

(** X11: after any sequence of [save] and [update] calls on an empty
    database the index is in the order of the sequence numbers: of two
    members the one at the lower rank has the smaller number, so batches
    list entries from the least recently saved on. *)
Theorem index_in_sequence_order (ops : list (op pyobj)) (i j : nat) a b :
  Redis.zset (run_ops pickle_dumps pickle_loads ops Redis.empty) !! i = Some a →
  Redis.zset (run_ops pickle_dumps pickle_loads ops Redis.empty) !! j = Some b →
  (i < j)%nat → a.2 < b.2.
Proof.
  assert (StronglySorted (λ a b : string * Z, a.2 < b.2)
            (Redis.zset (run_ops pickle_dumps pickle_loads ops Redis.empty))) as Hs.
  { unfold run_ops.
    assert (index_ok Redis.empty ∧
            StronglySorted (λ a b : string * Z, a.2 < b.2)
              (Redis.zset Redis.empty)) as H0.
    { split; [apply index_ok_empty|constructor]. }
    revert H0. generalize Redis.empty.
    induction ops as [|o ops IH]; intros r [Hok Hr]; [done|].
    simpl. apply IH. destruct o as [d|d]; simpl.
    - split; [by apply index_ok_save|by apply sorted_save].
    - split; [by apply index_ok_update|].
      destruct (update_writes pickle_dumps pickle_loads d r) as (_ & -> & _).
      done. }
  intros Hi Hj Hij.
  rewrite <-(take_drop j (Redis.zset _)) in Hs.
  eapply (StronglySorted_app_1_elem_of _ _ _ a b Hs).
  - apply list_elem_of_lookup_2 with i. by rewrite lookup_take_lt.
  - apply list_elem_of_lookup_2 with 0%nat. by rewrite lookup_drop, Nat.add_0_r.
Qed.

(** X12: the sequence counter counts the saves that went through: after a
    sequence of calls it has grown by the number of [save] calls for
    entries that have a key, neither [update] nor a [save] that raises
    moves it. *)
Theorem counter_counts_saves (ops : list (op pyobj)) (r : Redis.db) :
  Redis.counter (run_ops pickle_dumps pickle_loads ops r)
  = Redis.counter r
    + Z.of_nat (length (filter (λ o, is_Some (saved_key o)) ops)).
Proof.
  unfold run_ops. revert r. induction ops as [|o ops IH]; intros r.
  - simpl. lia.
  - simpl foldl. rewrite IH. destruct o as [d|d].
    + destruct ((make_key (sd_query d)).1) as [e|key] eqn:Hk.
      * rewrite filter_cons_False
          by (simpl; unfold key_of; rewrite Hk; by intros [? ?]).
        simpl. by rewrite (save_raise _ _ e).
      * rewrite filter_cons_True by (simpl; unfold key_of; by rewrite Hk).
        simpl. rewrite (save_eq _ _ key) by done. simpl. lia.
    + rewrite filter_cons_False by (simpl; by intros [? ?]).
      simpl. by destruct (update_writes pickle_dumps pickle_loads d r) as (-> & _).
Qed.

(** The contract of pickle, as before. *)
Hypothesis pickle_round_trip : ∀ d, pickle_loads (pickle_dumps d 4) = inr d.
Hypothesis pickle_nonempty : ∀ d, pickle_dumps d 4 ≠ [].

(** X13: [read] after [save] returns the entry saved: for an entry with a
    key, on any database, [save] returns and a [read] of the entry's query
    then returns the entry as [save] left it, which is the entry given with
    an absent time range filled in as the empty text. *)
Theorem save_then_read (e : SearchData pyobj) key (r : Redis.db) :
  keyed e key →
  ∃ e' r',
    save pickle_dumps e r = (inr e', r') ∧
    read pickle_loads (sd_query e) r' = (inr (Some e'), r') ∧
    sd_query e' =
      set_time_range (Some (default "" (time_range (sd_query e)))) (sd_query e) ∧
    refreshed e' e = e'.
Proof.
  intros Hk. eexists _, _. split; [by apply save_eq|]. split; [|split].
  - eapply read_stored; [done..|]. simpl. apply lookup_insert_eq.
  - by rewrite make_key_data_query, make_key_object.
  - apply make_key_data_outputs.
Qed.

(** X14: refreshing twice with the same entry is refreshing once: the
    second [update(d)] leaves the database as the first one left it. *)
Theorem update_twice (d : SearchData pyobj) (r : Redis.db) :
  (update pickle_dumps pickle_loads d
     (update pickle_dumps pickle_loads d r).2).2
  = (update pickle_dumps pickle_loads d r).2.
Proof.
  destruct ((make_key (sd_query d)).1) as [e|key] eqn:Hk.
  - by rewrite !(update_raise _ _ _ e).
  - rewrite (update_eq _ _ d key r) by done.
    destruct (Redis.strings r !! key) as [[|b0 b]|] eqn:Hs.
    + simpl. by rewrite (update_eq _ _ d key r), Hs.
    + destruct (pickle_loads (b0 :: b)) as [e|current] eqn:Hl; simpl.
      * by rewrite (update_eq _ _ d key r), Hs, Hl.
      * erewrite update_stored; [|done..|simpl; apply lookup_insert_eq].
        simpl. unfold Redis.set. simpl. by rewrite insert_insert_eq.
    + simpl. by rewrite (update_eq _ _ d key r), Hs.
Qed.

End StoreInvariants.

(** ** More on the refresh loop *)

Section MoreRefreshFacts.

Context {pyobj : Type}.
Variable pickle_dumps : SearchData pyobj → Z → list byte.
Variable pickle_loads : list byte → exn + SearchData pyobj.
Variable time_at : nat → Q.
Variable is_set_at : nat → bool.
Variable upgrade_history : Z.
Variable search_data : SearchQuery → SearchData pyobj.

Lemma refresh_queries_cons query rest w :
  refresh_queries pickle_dumps pickle_loads is_set_at search_data (query :: rest) w
  = match update pickle_dumps pickle_loads (search_data query) (redis w) with
    | (inl e, r) =>
        (inl e, {| redis := r; clock_reads := clock_reads w;
                   event_reads := event_reads w; waits := waits w |})
    | (inr _, r) =>
        if is_set_at (event_reads w)
        then (inr true, {| redis := r; clock_reads := clock_reads w;
                           event_reads := S (event_reads w); waits := waits w |})
        else refresh_queries pickle_dumps pickle_loads is_set_at search_data rest
               {| redis := r; clock_reads := clock_reads w;
                  event_reads := S (event_reads w); waits := waits w |}
    end.
Proof.
  simpl. unfold mbind, ST_bind, on_redis, is_set.
  destruct (update pickle_dumps pickle_loads (search_data query) (redis w))
    as [[e|u] r]; [done|]. simpl.
  by destruct (is_set_at (event_reads w)).
Qed.

(** X15: when the [for] loop over a batch ends without leaving the
    function, every query of the batch has been searched and its entry
    refreshed, in the order of the batch; the event was read once per query
    and found unset each time; the clock was not read and nothing was
    waited for. *)
Theorem refresh_queries_completed (queries : list SearchQuery) (w w' : world) :
  refresh_queries pickle_dumps pickle_loads is_set_at search_data queries w
  = (inr false, w') →
  redis w' = run_ops pickle_dumps pickle_loads
               (Update <$> (search_data <$> queries)) (redis w) ∧
  event_reads w' = (event_reads w + length queries)%nat ∧
  (∀ i, (i < length queries)%nat → is_set_at (event_reads w + i) = false) ∧
  clock_reads w' = clock_reads w ∧ waits w' = waits w.
Proof.
  revert w. induction queries as [|query rest IH]; intros w.
  - intros [= <-]. repeat split; [simpl; lia|intros i Hi; simpl in Hi; lia].
  - rewrite refresh_queries_cons. unfold run_ops. rewrite !fmap_cons. simpl foldl.
    destruct (update pickle_dumps pickle_loads (search_data query) (redis w))
      as [[e|u] r]; [done|].
    destruct (is_set_at (event_reads w)) eqn:Hset; [done|].
    intros (Hr & He & Hf & Hc & Hw)%IH. simpl in *.
    split; [done|]. split; [lia|]. split; [|done].
    intros [|i] Hi; [by rewrite Nat.add_0_r|].
    replace (event_reads w + S i)%nat with (S (event_reads w) + i)%nat by lia.
    apply Hf. lia.
Qed.

Lemma refresh_queries_app before rest w :
  refresh_queries pickle_dumps pickle_loads is_set_at search_data (before ++ rest) w
  = match refresh_queries pickle_dumps pickle_loads is_set_at search_data before w with
    | (inr false, w1) =>
        refresh_queries pickle_dumps pickle_loads is_set_at search_data rest w1
    | other => other
    end.
Proof.
  revert w. induction before as [|query before IH]; intros w; [done|].
  rewrite <-app_comm_cons, !refresh_queries_cons.
  destruct (update _ _ _ _) as [[e|u] r]; [done|].
  destruct (is_set_at (event_reads w)); [done|]. apply IH.
Qed.

(** X16: the [for] loop leaves the function at the first query after whose
    refresh the event is found set: when the queries before it went through
    with the event unset, the rest of the batch is neither searched nor
    refreshed, whatever it holds. *)
Theorem refresh_queries_cancelled (before rest : list SearchQuery)
    (query : SearchQuery) (w w1 : world) u (r : Redis.db) :
  refresh_queries pickle_dumps pickle_loads is_set_at search_data before w
  = (inr false, w1) →
  update pickle_dumps pickle_loads (search_data query) (redis w1) = (inr u, r) →
  is_set_at (event_reads w1) = true →
  refresh_queries pickle_dumps pickle_loads is_set_at search_data
    (before ++ query :: rest) w
  = (inr true, {| redis := r; clock_reads := clock_reads w1;
                  event_reads := S (event_reads w1); waits := waits w1 |}).
Proof.
  intros Hbefore Hu Hset.
  by rewrite refresh_queries_app, Hbefore, refresh_queries_cons, Hu, Hset.
Qed.

Lemma loop_body_eq x start_time w :
  loop_body pickle_dumps pickle_loads time_at is_set_at upgrade_history
    search_data x start_time w
  = match on_redis (get_twenty_queries pickle_loads x) w with
    | (inl e, w1) => (inl e, w1)
    | (inr queries, w1) =>
        match refresh_queries pickle_dumps pickle_loads is_set_at search_data
                queries w1 with
        | (inl e, w2) => (inl e, w2)
        | (inr true, w2) => (inr None, w2)
        | (inr false, w2) =>
            if Z.of_nat (length queries) <? 20
            then (inr (Some (0, time_at (S (clock_reads w2)))),
                  after_wait time_at upgrade_history start_time w2)
            else (inr (Some (x + Z.of_nat (length queries), start_time)), w2)
        end
    end.
Proof.
  destruct (on_redis (get_twenty_queries pickle_loads x) w) as [[e|queries] w1] eqn:H1.
  { unfold loop_body, mbind, ST_bind. by rewrite H1. }
  destruct (refresh_queries pickle_dumps pickle_loads is_set_at search_data
              queries w1) as [[e|[|]] w2] eqn:H2.
  - unfold loop_body, mbind, ST_bind. by rewrite H1, H2.
  - unfold loop_body, mbind, ST_bind. by rewrite H1, H2.
  - unfold loop_body, mbind, ST_bind. rewrite H1, H2.
    destruct (Z.of_nat (length queries) <? 20); [|done].
    by rewrite wait_updating_eq.
Qed.

Lemma while_running_S fuel x start_time w :
  while_running pickle_dumps pickle_loads time_at is_set_at upgrade_history
    search_data (S fuel) x start_time w
  = if is_set_at (event_reads w)
    then (inr (Some tt),
          {| redis := redis w; clock_reads := clock_reads w;
             event_reads := S (event_reads w); waits := waits w |})
    else
      match loop_body pickle_dumps pickle_loads time_at is_set_at
              upgrade_history search_data x start_time
              {| redis := redis w; clock_reads := clock_reads w;
                 event_reads := S (event_reads w); waits := waits w |} with
      | (inl e, w') => (inl e, w')
      | (inr None, w') => (inr (Some tt), w')
      | (inr (Some (x', start_time')), w') =>
          while_running pickle_dumps pickle_loads time_at is_set_at
            upgrade_history search_data fuel x' start_time' w'
      end.
Proof.
  simpl. unfold mbind, ST_bind, is_set. simpl.
  destruct (is_set_at (event_reads w)); [done|].
  destruct (loop_body _ _ _ _ _ _ _ _ _) as [[e|[[x' st']|]] w']; done.
Qed.

Lemma on_redis_world {A} (m : ST Redis.db A) w :
  clock_reads (on_redis m w).2 = clock_reads w ∧
  event_reads (on_redis m w).2 = event_reads w ∧
  waits (on_redis m w).2 = waits w.
Proof. unfold on_redis. by destruct (m (redis w)). Qed.

Lemma refresh_queries_world queries w :
  clock_reads (refresh_queries pickle_dumps pickle_loads is_set_at search_data
                 queries w).2 = clock_reads w ∧
  waits (refresh_queries pickle_dumps pickle_loads is_set_at search_data
           queries w).2 = waits w ∧
  (event_reads w ≤ event_reads (refresh_queries pickle_dumps pickle_loads
                                  is_set_at search_data queries w).2)%nat.
Proof.
  revert w. induction queries as [|query rest IH]; intros w; [done|].
  rewrite refresh_queries_cons.
  destruct (update _ _ _ _) as [[e|u] r]; [done|].
  destruct (is_set_at (event_reads w)); [simpl; auto with lia|].
  destruct (IH {| redis := r; clock_reads := clock_reads w;
                  event_reads := S (event_reads w); waits := waits w |})
    as (Hc & Hw & He). simpl in *. auto with lia.
Qed.

(** An [update] that raises has written nothing. *)
Lemma update_raises_unchanged d r e r' :
  update pickle_dumps pickle_loads d r = (inl e, r') → r' = r.
Proof.
  destruct ((make_key (sd_query d)).1) as [e0|key] eqn:Hk.
  - rewrite (update_raise _ _ _ e0) by done. by intros [= _ <-].
  - rewrite (update_eq _ _ _ key) by done.
    destruct (Redis.strings r !! key) as [[|b0 b]|]; try by intros [= _ <-].
    destruct (pickle_loads (b0 :: b)); [by intros [= _ <-]|done].
Qed.

(** X17: an exception of [update] ends the loop, wherever in the batch it
    is raised: when the event is not set at the head of a pass, the queries
    of the batch before [query] are refreshed with the event unset and the
    [update] for [query] raises, the exception leaves
    [while not running.is_set()] whatever the number of passes allowed.
    Nothing catches it, the thread is left as the refreshes before the failing
    one left it, and the queries after it are not refreshed, whatever they
    are. *)
Theorem update_failure_ends_loop (fuel : nat) (x : Z) (start_time : Q)
    (w w1 : world) before query rest (r0 : Redis.db) (e : exn) :
  is_set_at (event_reads w) = false →
  get_twenty_queries pickle_loads x (redis w)
  = (inr (before ++ query :: rest), r0) →
  refresh_queries pickle_dumps pickle_loads is_set_at search_data before
    {| redis := r0; clock_reads := clock_reads w;
       event_reads := S (event_reads w); waits := waits w |}
  = (inr false, w1) →
  (update pickle_dumps pickle_loads (search_data query) (redis w1)).1 = inl e →
  while_running pickle_dumps pickle_loads time_at is_set_at upgrade_history
    search_data (S fuel) x start_time w
  = (inl e, w1).
Proof.
  intros Hset Hbatch Hbefore Hupdate.
  rewrite while_running_S, Hset, loop_body_eq.
  unfold on_redis at 1. simpl. rewrite Hbatch.
  rewrite refresh_queries_app, Hbefore, refresh_queries_cons.
  destruct (update pickle_dumps pickle_loads (search_data query) (redis w1))
    as [[e'|u] r] eqn:Hu; simpl in Hupdate; [|done].
  injection Hupdate as ->. apply update_raises_unchanged in Hu as ->.
  by destruct w1.
Qed.

(** X18: when the event is set before the first pass, [update_results]
    returns after reading the clock once and the event once: it issues no
    command to the database and does not wait. *)
Theorem update_results_cancelled_at_once (fuel : nat) (w : world) :
  is_set_at (event_reads w) = true →
  update_results pickle_dumps pickle_loads time_at is_set_at upgrade_history
    search_data (S fuel) w
  = (inr (Some tt),
     {| redis := redis w; clock_reads := S (clock_reads w);
        event_reads := S (event_reads w); waits := waits w |}).
Proof.
  intros Hset. unfold update_results, mbind, ST_bind, time.
  rewrite while_running_S. simpl. by rewrite Hset.
Qed.

Lemma loop_body_event_reads x start_time w :
  (event_reads w
   ≤ event_reads (loop_body pickle_dumps pickle_loads time_at is_set_at
                    upgrade_history search_data x start_time w).2)%nat.
Proof.
  rewrite loop_body_eq.
  pose proof (on_redis_world (get_twenty_queries pickle_loads x) w) as (_ & He1 & _).
  destruct (on_redis _ w) as [[e|queries] w1]; simpl in *; [lia|].
  pose proof (refresh_queries_world queries w1) as (_ & _ & He2).
  destruct (refresh_queries _ _ _ _ queries w1) as [[e|[|]] w2]; simpl in *;
    try lia.
  destruct (Z.of_nat (length queries) <? 20); simpl; lia.
Qed.

(** X19: once the event stays set the loop ends: if every reading of the
    event from the [n]-th on finds it set, then [n] further passes, less
    the readings already made, are enough for [while not running.is_set()]
    to be left, by a return or by an exception. *)
Theorem cancellation_ends_loop (n k : nat) (x : Z) (start_time : Q) (w : world) :
  (∀ m, (n ≤ m)%nat → is_set_at m = true) →
  (n ≤ event_reads w + k)%nat →
  (while_running pickle_dumps pickle_loads time_at is_set_at upgrade_history
     search_data (S k) x start_time w).1 ≠ inr None.
Proof.
  intros Hset. revert x start_time w.
  induction k as [|k IH]; intros x start_time w Hn; rewrite while_running_S.
  - rewrite Hset by lia. done.
  - destruct (is_set_at (event_reads w)) eqn:Hw; [done|].
    assert (event_reads w < n)%nat as Hlt.
    { destruct (decide (n ≤ event_reads w)%nat) as [Hle|]; [|lia].
      apply Hset in Hle. congruence. }
    pose proof (loop_body_event_reads x start_time
                  {| redis := redis w; clock_reads := clock_reads w;
                     event_reads := S (event_reads w); waits := waits w |}) as He.
    destruct (loop_body _ _ _ _ _ _ _ _ _) as [[e|[[x' st']|]] w']; [done| |done].
    apply IH. simpl in He. lia.
Qed.

Lemma py_int_nonneg (x : Q) : (0 <= x)%Q → 0 ≤ py_int x.
Proof.
  unfold py_int, Qle. simpl. intros Hx. apply Z.quot_pos; lia.
Qed.

Lemma loop_body_waits x start_time w :
  (∀ i j, (i ≤ j)%nat → (time_at i <= time_at j)%Q) →
  Forall (λ t, 0 < t ≤ upgrade_history) (waits w) →
  (∃ i, (i < clock_reads w)%nat ∧ start_time = time_at i) →
  Forall (λ t, 0 < t ≤ upgrade_history)
    (waits (loop_body pickle_dumps pickle_loads time_at is_set_at
              upgrade_history search_data x start_time w).2) ∧
  ∀ x' start_time',
    (loop_body pickle_dumps pickle_loads time_at is_set_at upgrade_history
       search_data x start_time w).1 = inr (Some (x', start_time')) →
    ∃ i, (i < clock_reads (loop_body pickle_dumps pickle_loads time_at
                             is_set_at upgrade_history search_data
                             x start_time w).2)%nat
         ∧ start_time' = time_at i.
Proof.
  intros Hmono Hw (i & Hi & ->). rewrite loop_body_eq.
  pose proof (on_redis_world (get_twenty_queries pickle_loads x) w)
    as (Hc1 & _ & Hw1).
  destruct (on_redis _ w) as [[e|queries] w1]; simpl in *.
  { by rewrite Hw1. }
  pose proof (refresh_queries_world queries w1) as (Hc2 & Hw2 & _).
  destruct (refresh_queries _ _ _ _ queries w1) as [[e|[|]] w2]; simpl in *;
    try (by rewrite Hw2, Hw1).
  destruct (Z.of_nat (length queries) <? 20); simpl.
  - split.
    + rewrite Hw2, Hw1. apply Forall_app. split; [done|].
      destruct (0 <? _) eqn:Hpos; [|constructor].
      repeat constructor; [lia|].
      assert (0 ≤ py_int (time_at (clock_reads w2) - time_at i)); [|lia].
      apply py_int_nonneg. unfold Qminus.
      apply (proj1 (Qle_minus_iff _ _)), Hmono. lia.
    + intros x' st' [= <- <-]. exists (S (clock_reads w2)). split; [lia|done].
  - split; [by rewrite Hw2, Hw1|].
    intros x' st' [= <- <-]. exists i. split; [lia|done].
Qed.

(** X20: with a clock that never runs backwards, every timeout the thread
    passes to [running.wait] is positive and at most the configured cycle
    duration, however many passes it makes. *)
Theorem waits_within_cycle (fuel : nat) (w : world) :
  (∀ i j, (i ≤ j)%nat → (time_at i <= time_at j)%Q) →
  Forall (λ t, 0 < t ≤ upgrade_history) (waits w) →
  Forall (λ t, 0 < t ≤ upgrade_history)
    (waits (update_results pickle_dumps pickle_loads time_at is_set_at
              upgrade_history search_data fuel w).2).
Proof.
  intros Hmono Hw. unfold update_results, mbind, ST_bind, time.
  assert (∀ fuel x start_time w,
            Forall (λ t, 0 < t ≤ upgrade_history) (waits w) →
            (∃ i, (i < clock_reads w)%nat ∧ start_time = time_at i) →
            Forall (λ t, 0 < t ≤ upgrade_history)
              (waits (while_running pickle_dumps pickle_loads time_at is_set_at
                        upgrade_history search_data fuel x start_time w).2))
    as Hloop.
  { clear w Hw. intros n. induction n as [|n IH]; intros x st w Hw Hst; [exact Hw|].
    rewrite while_running_S.
    destruct (is_set_at (event_reads w)); [done|].
    destruct (loop_body_waits x st
                {| redis := redis w; clock_reads := clock_reads w;
                   event_reads := S (event_reads w); waits := waits w |}
                Hmono Hw Hst) as (Hw' & Hst').
    destruct (loop_body _ _ _ _ _ _ _ _ _) as [[e|[[x' st']|]] w'];
      simpl in *; try done.
    apply IH; [done|]. by apply (Hst' x' st'). }
  apply Hloop; [done|]. exists (clock_reads w). simpl. split; [lia|done].
Qed.

End MoreRefreshFacts.

(** ** The path fix and the theme name *)

Lemma startswith_slice (s prefix : string) :
  startswith s prefix = true →
  prefix +:+ slice_from (String.length prefix) s = s.
Proof.
  revert s. induction prefix as [|a prefix IH]; intros s; simpl; [done|].
  destruct s as [|b s]; [done|].
  intros [->%Ascii.eqb_eq Hs]%andb_true_iff.
  change (String a prefix +:+ ?t) with (String a (prefix +:+ t)).
  by rewrite IH.
Qed.

(** X21: with a script name in [X-Script-Name] and a path, the fix stores
    the script name as [SCRIPT_NAME]; a path that starts with the script
    name is cut after it, so that script name and new path together are the
    old path, and any other path is left as it is. *)
Theorem fix_environ_splits_path (environ : gmap string string) script_name path_info :
  environ !! "HTTP_X_SCRIPT_NAME" = Some script_name → script_name ≠ "" →
  environ !! "PATH_INFO" = Some path_info →
  (fix_environ environ).1 = inr tt ∧
  (fix_environ environ).2 !! "SCRIPT_NAME" = Some script_name ∧
  (startswith path_info script_name = true →
   ∃ rest, (fix_environ environ).2 !! "PATH_INFO" = Some rest ∧
           script_name +:+ rest = path_info) ∧
  (startswith path_info script_name = false →
   (fix_environ environ).2 !! "PATH_INFO" = Some path_info).
Proof.
  intros Hs Hne Hp. unfold fix_environ. rewrite Hs. simpl.
  rewrite decide_False by done.
  rewrite lookup_insert_ne, Hp by done.
  destruct (startswith path_info script_name) eqn:Hstart.
  - rewrite !lookup_insert_ne by done.
    destruct (decide (default "" (environ !! "HTTP_X_SCHEME") = "")); simpl.
    all: rewrite ?(lookup_insert_ne _ "wsgi.url_scheme") by done.
    all: rewrite lookup_insert_eq, lookup_insert_ne, lookup_insert_eq by done.
    all: repeat split; try done.
    all: intros _; eexists; split; [done|by apply startswith_slice].
  - rewrite !lookup_insert_ne by done.
    destruct (decide (default "" (environ !! "HTTP_X_SCHEME") = "")); simpl.
    all: rewrite ?(lookup_insert_ne _ "wsgi.url_scheme") by done.
    all: rewrite lookup_insert_eq, lookup_insert_ne, Hp by done.
    all: repeat split; done.
Qed.

(** X22: the fix writes three entries at most: every entry of the
    environment other than [SCRIPT_NAME], [PATH_INFO] and [wsgi.url_scheme]
    is left as it was, also when the fix raises. *)
Theorem fix_environ_frame (environ : gmap string string) (k : string) :
  k ≠ "SCRIPT_NAME" → k ≠ "PATH_INFO" → k ≠ "wsgi.url_scheme" →
  (fix_environ environ).2 !! k = environ !! k.
Proof.
  intros H1 H2 H3. unfold fix_environ.
  repeat (case_decide || case_match || simplify_eq/=);
    by rewrite ?lookup_insert_ne by done.
Qed.

(** X23: with a script name in [X-Script-Name] but no [PATH_INFO] in the
    environment the call raises [KeyError] and the wrapped application is
    not called. *)
Theorem reverse_proxy_missing_path {R : Type} (app : gmap string string → R)
    (environ : gmap string string) script_name :
  environ !! "HTTP_X_SCRIPT_NAME" = Some script_name → script_name ≠ "" →
  environ !! "PATH_INFO" = None →
  reverse_proxy_call app environ = inl KeyError.
Proof.
  intros Hs Hne Hp. unfold reverse_proxy_call, fix_environ. rewrite Hs. simpl.
  rewrite decide_False by done. by rewrite lookup_insert_ne, Hp.
Qed.

(** X24: without the two proxy headers, absent or empty, the wrapped
    application is called on the environment as it came. *)
Theorem reverse_proxy_transparent {R : Type} (app : gmap string string → R)
    (environ : gmap string string) :
  default "" (environ !! "HTTP_X_SCRIPT_NAME") = "" →
  default "" (environ !! "HTTP_X_SCHEME") = "" →
  reverse_proxy_call app environ = inr (app environ).
Proof.
  intros Hs Hh. unfold reverse_proxy_call, fix_environ. rewrite Hs. simpl.
  by rewrite Hh.
Qed.

(** X25: when the default theme of the settings is one of the themes on
    disk, the theme name returned is always one of the themes on disk, the
    one exception being the override [__common__], which is returned as it
    is. *)
Theorem get_current_theme_name_known (themes : list string) default_theme
    args_theme preferences_theme override :
  default_theme ∈ themes →
  get_current_theme_name themes default_theme args_theme preferences_theme override
    ∈ themes
  ∨ (override = Some "__common__" ∧
     get_current_theme_name themes default_theme args_theme preferences_theme
       override = "__common__").
Proof.
  intros Hd. unfold get_current_theme_name.
  assert ((if bool_decide (default preferences_theme args_theme ∈ themes)
           then default preferences_theme args_theme else default_theme)
          ∈ themes) as Hrest.
  { case_bool_decide; done. }
  destruct override as [o|]; [|by left].
  destruct (negb (String.eqb o "")); simpl; [|by left].
  destruct (bool_decide (o ∈ themes)) eqn:Hin; simpl.
  { left. by apply bool_decide_eq_true in Hin. }
  destruct (String.eqb o "__common__") eqn:Ho; [|by left].
  apply String.eqb_eq in Ho as ->. by right.
Qed.

(** ** The search page and the image proxy *)

Section FirstPageFacts.

Context {result : Type} `{EqDecision result}.
Variable category : result → option string.

Lemma list_remove_app (x : result) (kept rest : list result) :
  Forall (λ y, y ≠ x) kept →
  list_remove x (kept ++ x :: rest) = Some (kept ++ rest).
Proof.
  induction 1 as [|y kept Hy _ IH]; simpl.
  - by rewrite decide_True.
  - rewrite decide_False by done. by rewrite IH.
Qed.

Lemma remove_other_categories_app (kept copy : list result) :
  Forall (λ r, category r = Some "general") kept →
  remove_other_categories category copy (kept ++ copy)
  = Some (kept ++ filter (λ r, category r = Some "general") copy).
Proof.
  revert kept. induction copy as [|res copy IH]; intros kept Hkept; simpl.
  - done.
  - rewrite filter_cons. case_decide as Hres.
    + rewrite (cons_middle res kept copy), (assoc_L (++)), IH.
      * by rewrite <-(assoc_L (++)).
      * apply Forall_app. split; [done|]. by constructor.
    + rewrite list_remove_app.
      * simpl. by apply IH.
      * eapply Forall_impl; [exact Hkept|]. intros y Hy ->. done.
Qed.

(** X26: on the first page of the general category, the loop that removes
    from the results every result of another category never fails to find
    the result it removes, and leaves exactly the results of category
    [general], in their order, also when equal results occur twice. *)
Theorem remove_other_categories_filter (results : list result) :
  remove_other_categories category results results
  = Some (filter (λ r, category r = Some "general") results).
Proof. apply (remove_other_categories_app [] results). constructor. Qed.

End FirstPageFacts.

#[local] Arguments slice_from : simpl never.
#[local] Arguments startswith : simpl never.

Lemma pick_category_skip categories pre items category :
  Forall (λ '(name, value),
            ¬ (startswith name "category_" = true ∧
               slice_from 9 name ∈ categories ∧ value = "on")) pre →
  ∃ category',
    pick_category categories (pre ++ items) category
    = pick_category categories items category'.
Proof.
  revert category. induction pre as [|[name value] pre IH]; intros cat Hpre.
  - by eexists.
  - apply Forall_cons in Hpre as [Hnv Hpre]. simpl.
    destruct (startswith name "category_") eqn:Hs; [|by apply IH].
    destruct (bool_decide (slice_from 9 name ∈ categories) && String.eqb value "on")
      eqn:Hsel; [|by apply IH].
    exfalso. apply andb_true_iff in Hsel as [Hin Hon].
    apply Hnv. split; [done|]. split.
    + by apply bool_decide_eq_true in Hin.
    + by apply String.eqb_eq.
Qed.

(** X27: the first form field [category_]name that names a known category
    and has the value [on] decides the category, whatever fields come
    before and after it. *)
Theorem pick_category_first_selected (categories : list string)
    (pre post : list (string * string)) (name : string) (category : option string) :
  startswith name "category_" = true →
  slice_from 9 name ∈ categories →
  Forall (λ '(name, value),
            ¬ (startswith name "category_" = true ∧
               slice_from 9 name ∈ categories ∧ value = "on")) pre →
  pick_category categories (pre ++ (name, "on") :: post) category
  = Some (slice_from 9 name).
Proof.
  intros Hs Hin Hpre.
  destruct (pick_category_skip categories pre ((name, "on") :: post) category Hpre)
    as [category' ->].
  simpl. rewrite Hs. by rewrite bool_decide_eq_true_2.
Qed.

(** X28: when no field selects a known category, a later field
    [category_]name still sets the category: the last such field decides,
    also when its category is unknown or its value is not [on]. *)
Theorem pick_category_last_field (categories : list string)
    (pre post : list (string * string)) (name value : string)
    (category : option string) :
  startswith name "category_" = true →
  ¬ (slice_from 9 name ∈ categories ∧ value = "on") →
  Forall (λ '(name, value),
            ¬ (startswith name "category_" = true ∧
               slice_from 9 name ∈ categories ∧ value = "on")) pre →
  Forall (λ '(name, value), startswith name "category_" = false) post →
  pick_category categories (pre ++ (name, value) :: post) category
  = Some (slice_from 9 name).
Proof.
  intros Hs Hnot Hpre Hpost.
  destruct (pick_category_skip categories pre ((name, value) :: post) category Hpre)
    as [category' ->].
  simpl. rewrite Hs.
  destruct (bool_decide (slice_from 9 name ∈ categories) && String.eqb value "on")
    eqn:Hsel; [done|].
  clear Hsel. induction Hpost as [|[n v] post Hn _ IH]; [done|].
  simpl. by rewrite Hn.
Qed.

Section ImageProxyFacts.

Variable new_hmac : string → string.
Variable gen_useragent : string.
Variable request_subset : list (string * string) → list string → list (string * string).
Variable resp_subset : upstream → list string → list (string * string).
Variable requests_get : string → list (string * string) → upstream.

Lemma read_chunks_some chunks chunk_counter img :
  chunk_counter ≤ 5 →
  read_chunks chunks chunk_counter img
  = if decide (chunk_counter + Z.of_nat (length chunks) ≤ 5)
    then Some (img ++ concat chunks) else None.
Proof.
  revert chunk_counter img.
  induction chunks as [|chunk chunks IH]; intros n img Hn; simpl.
  - rewrite decide_True by lia. by rewrite app_nil_r.
  - destruct (5 <? n + 1) eqn:Hlt.
    + rewrite decide_False by lia. done.
    + rewrite IH by lia. rewrite <-(assoc_L (++)).
      destruct (decide (n + 1 + Z.of_nat (length chunks) ≤ 5));
        [rewrite decide_True by lia|rewrite decide_False by lia]; done.
Qed.

(** X29: the image proxy answers 200 only for a URL that is not empty and
    comes with its own signature, when the image server answered 200 with a
    content type that starts with [image/] and no more than five chunks;
    the body is then the chunks put together and the content type is the
    one of the server. *)
Theorem image_proxy_ok (args_url args_h : option string)
    (request_headers : list (string * string)) :
  status (image_proxy new_hmac gen_useragent request_subset resp_subset
            requests_get args_url args_h request_headers) = 200 →
  ∃ url content_type,
    args_url = Some url ∧ url ≠ "" ∧ args_h = Some (new_hmac url) ∧
    let resp :=
      requests_get url
        (request_subset request_headers ["If-Modified-Since"; "If-None-Match"]
         ++ [("User-Agent", gen_useragent)]) in
    status_code resp = 200 ∧
    header resp "content-type" = Some content_type ∧
    startswith content_type "image/" = true ∧
    (length (iter_content resp) ≤ 5)%nat ∧
    body (image_proxy new_hmac gen_useragent request_subset resp_subset
            requests_get args_url args_h request_headers)
    = concat (iter_content resp) ∧
    mimetype (image_proxy new_hmac gen_useragent request_subset resp_subset
                requests_get args_url args_h request_headers)
    = Some content_type.
Proof.
  unfold image_proxy. destruct args_url as [[|a url']|]; [done| |done].
  set (url := String a url') in *.
  destruct (bool_decide (Some (new_hmac url) = args_h)) eqn:Hh; [|done].
  apply bool_decide_eq_true in Hh. simpl.
  set (resp := requests_get url _).
  destruct (status_code resp =? 304) eqn:H304.
  { simpl. intros Hst. exfalso. lia. }
  destruct (status_code resp =? 200) eqn:H200; simpl.
  2:{ apply Z.eqb_neq in H200.
      destruct (status_code resp >=? 400) eqn:H400; simpl; [done|].
      intros Hst. exfalso. lia. }
  destruct (header resp "content-type") as [ct|] eqn:Hct; simpl; [|done].
  destruct (startswith ct "image/") eqn:Hstart; simpl; [|done].
  rewrite read_chunks_some by done.
  case_decide as Hlen; simpl; [|done].
  intros _. exists url, ct. apply Z.eqb_eq in H200. subst resp.
  split; [done|]. split; [done|]. split; [done|]. split; [done|].
  split; [done|]. split; [done|]. split; [lia|]. done.
Qed.

(** X30: the image proxy never answers with a status between 201 and 399
    other than 304: its status is 200, 304 or at least 400. *)
Theorem image_proxy_status (args_url args_h : option string)
    (request_headers : list (string * string)) :
  let code := status (image_proxy new_hmac gen_useragent request_subset
                        resp_subset requests_get args_url args_h
                        request_headers) in
  code = 200 ∨ code = 304 ∨ 400 ≤ code.
Proof.
  unfold image_proxy. destruct args_url as [[|a url']|]; simpl; [lia| |lia].
  destruct (bool_decide _); simpl; [|lia].
  destruct (status_code _ =? 304) eqn:H304; simpl; [lia|].
  destruct (status_code _ =? 200) eqn:H200; simpl.
  2:{ destruct (status_code _ >=? 400) eqn:H400; simpl; lia. }
  destruct (startswith _ _); simpl; [|lia].
  destruct (read_chunks _ _ _); simpl; lia.
Qed.

End ImageProxyFacts.

(** ** More runs *)

Module MoreRuns.
Import PickleModel PickleModelFacts Samples MoreSamples.

Lemma make_key_first_category_only_witness :
  (make_key q_two_categories).1 = (make_key q_no_time_range).1.
Proof.
  apply (make_key_first_category_only q_two_categories q_no_time_range
           "general" ["images"] []); reflexivity.
Defined.

Lemma make_key_key_space_witness :
  key_rust ≠ "SEARCH_HISTORY_INDEX" ∧ key_rust ≠ "SEARCH_HISTORY_KEYS".
Proof.
  destruct (make_key_key_space q_no_time_range key_rust) as (_ & H1 & H2).
  - reflexivity.
  - split; [exact H1|exact H2].
Defined.

Lemma no_category_raises_witness :
  save dumps (entry q_no_category "old") two_entries_db
  = (inl IndexError, two_entries_db).
Proof.
  destruct (no_category_raises dumps loads (entry q_no_category "old")
              two_entries_db) as (_ & H & _).
  - reflexivity.
  - exact H.
Defined.

Lemma get_twenty_queries_past_end_witness :
  get_twenty_queries loads 2 two_entries_db = (inr [], two_entries_db).
Proof.
  apply (get_twenty_queries_past_end loads 2 two_entries_db).
  vm_compute. discriminate.
Defined.

Lemma get_twenty_queries_at_most_21_witness :
  (length (page <$> seqZ 1 21) ≤ 21)%nat.
Proof.
  apply (get_twenty_queries_at_most_21 loads 0
           (run_ops dumps loads (Save <$> entries25) Redis.empty)).
  vm_compute. reflexivity.
Defined.

Lemma index_in_sequence_order_witness : (key_page1, 1).2 < (key_page2, 2).2.
Proof.
  apply (index_in_sequence_order dumps loads
           [Save (entry q_page1 "old"); Save (entry q_page2 "old")] 0 1).
  - vm_compute. reflexivity.
  - vm_compute. reflexivity.
  - lia.
Defined.

Lemma save_then_read_witness :
  ∃ e' r',
    save dumps (entry q_no_time_range "old") two_entries_db = (inr e', r') ∧
    read loads q_no_time_range r' = (inr (Some e'), r') ∧
    sd_query e' = q_stored ∧
    refreshed e' (entry q_no_time_range "old") = e'.
Proof.
  apply (save_then_read dumps loads loads_dumps dumps_nonempty
           (entry q_no_time_range "old") key_rust two_entries_db).
  reflexivity.
Defined.

Lemma update_twice_witness :
  (update dumps loads (entry q_page1 "new")
     (update dumps loads (entry q_page1 "new") two_entries_db).2).2
  = (update dumps loads (entry q_page1 "new") two_entries_db).2.
Proof.
  apply (update_twice dumps loads loads_dumps dumps_nonempty).
Defined.

Lemma refresh_queries_completed_witness :
  event_reads (refresh_queries dumps loads never_set search_new
                 [q_stored] one_entry_world).2 = 1%nat.
Proof.
  destruct (refresh_queries_completed dumps loads never_set search_new
              [q_stored] one_entry_world
              (refresh_queries dumps loads never_set search_new
                 [q_stored] one_entry_world).2) as (_ & He & _).
  - vm_compute. reflexivity.
  - exact He.
Defined.

Lemma refresh_queries_cancelled_witness :
  (refresh_queries dumps loads (λ n, bool_decide (1 ≤ n)%nat) search_new
     [q_stored; q_stored; q_page1; q_page2] one_entry_world).1 = inr true ∧
  event_reads
    (refresh_queries dumps loads (λ n, bool_decide (1 ≤ n)%nat) search_new
       [q_stored; q_stored; q_page1; q_page2] one_entry_world).2 = 2%nat.
Proof.
  rewrite (refresh_queries_cancelled dumps loads (λ n, bool_decide (1 ≤ n)%nat)
             search_new [q_stored] [q_page1; q_page2] q_stored one_entry_world
             (refresh_queries dumps loads (λ n, bool_decide (1 ≤ n)%nat)
                search_new [q_stored] one_entry_world).2
             (entry q_stored "new")
             (update dumps loads (entry q_stored "new")
                (redis (refresh_queries dumps loads (λ n, bool_decide (1 ≤ n)%nat)
                          search_new [q_stored] one_entry_world).2)).2).
  - split; vm_compute; reflexivity.
  - vm_compute. reflexivity.
  - vm_compute. reflexivity.
  - vm_compute. reflexivity.
Defined.

Lemma update_failure_ends_loop_witness :
  (get_twenty_queries loads 0 two_entries_db).1
  = inr [set_time_range (Some "") q_page1; q_page2] ∧
  (while_running dumps loads clock_from_4 never_set 10 search_page1_only
     3 0 0 two_entries_world).1 = inl AttributeError ∧
  redis (while_running dumps loads clock_from_4 never_set 10 search_page1_only
           3 0 0 two_entries_world).2
  = run_ops dumps loads [Update (entry q_page1 "new")] two_entries_db.
Proof.
  rewrite (update_failure_ends_loop dumps loads clock_from_4 never_set 10
             search_page1_only 2 0 0 two_entries_world
             (refresh_queries dumps loads never_set search_page1_only
                [set_time_range (Some "") q_page1]
                {| redis := two_entries_db; clock_reads := 0;
                   event_reads := 1; waits := [] |}).2
             [set_time_range (Some "") q_page1] q_page2 []
             two_entries_db AttributeError).
  - repeat split; vm_compute; reflexivity.
  - reflexivity.
  - vm_compute. reflexivity.
  - vm_compute. reflexivity.
  - vm_compute. reflexivity.
Defined.

Lemma update_results_cancelled_at_once_witness :
  update_results dumps loads clock_from_4 always_set 10 search_new 5
    one_entry_world
  = (inr (Some tt),
     {| redis := redis one_entry_world; clock_reads := 1; event_reads := 1;
        waits := [] |}).
Proof.
  apply (update_results_cancelled_at_once dumps loads clock_from_4 always_set
           10 search_new 4 one_entry_world).
  reflexivity.
Defined.

Lemma cancellation_ends_loop_witness :
  (while_running dumps loads clock_from_4 always_set 10 search_new
     1 0 0 one_entry_world).1 ≠ inr None.
Proof.
  apply (cancellation_ends_loop dumps loads clock_from_4 always_set 10
           search_new 0 0 0 0 one_entry_world).
  - reflexivity.
  - simpl. lia.
Defined.

Lemma waits_within_cycle_witness :
  Forall (λ t, 0 < t ≤ 10)
    (waits (update_results dumps loads clock_from_4 never_set 10 search_new 2
              one_entry_world).2).
Proof.
  apply (waits_within_cycle dumps loads clock_from_4 never_set 10 search_new 2
           one_entry_world).
  - intros i j Hij. unfold clock_from_4, Qle. simpl. lia.
  - constructor.
Defined.

Lemma fix_environ_splits_path_witness :
  (fix_environ proxied_environ).2 !! "SCRIPT_NAME" = Some "/searx" ∧
  ∃ rest, (fix_environ proxied_environ).2 !! "PATH_INFO" = Some rest ∧
          "/searx" +:+ rest = "/searx/search".
Proof.
  destruct (fix_environ_splits_path proxied_environ "/searx" "/searx/search")
    as (_ & Hs & Hp & _).
  - reflexivity.
  - discriminate.
  - reflexivity.
  - split; [exact Hs|]. apply Hp. reflexivity.
Defined.

Lemma fix_environ_frame_witness :
  (fix_environ proxied_environ).2 !! "REQUEST_METHOD" = Some "GET".
Proof.
  rewrite (fix_environ_frame proxied_environ "REQUEST_METHOD");
    [reflexivity|discriminate..].
Defined.

Lemma reverse_proxy_missing_path_witness :
  reverse_proxy_call (λ environ, environ !! "PATH_INFO") pathless_environ
  = inl KeyError.
Proof.
  apply (reverse_proxy_missing_path _ pathless_environ "/searx");
    [reflexivity|discriminate|reflexivity].
Defined.

Lemma reverse_proxy_transparent_witness :
  reverse_proxy_call (λ environ, environ !! "PATH_INFO") plain_environ
  = inr (Some "/search").
Proof.
  rewrite (reverse_proxy_transparent _ plain_environ); reflexivity.
Defined.

Lemma get_current_theme_name_known_witness :
  get_current_theme_name ["oscar"; "simple"] "oscar" (Some "legacy") "simple"
    (Some "") ∈ ["oscar"; "simple"]
  ∨ (Some "" = Some "__common__" ∧
     get_current_theme_name ["oscar"; "simple"] "oscar" (Some "legacy") "simple"
       (Some "") = "__common__").
Proof.
  apply (get_current_theme_name_known ["oscar"; "simple"] "oscar").
  apply (bool_decide_unpack _). reflexivity.
Defined.

Lemma pick_category_first_selected_witness :
  pick_category known_categories
    (form_before ++ ("category_images", "on") :: form_after) None
  = Some "images".
Proof.
  apply (pick_category_first_selected known_categories form_before form_after
           "category_images" None).
  - reflexivity.
  - apply (bool_decide_unpack _). reflexivity.
  - repeat constructor.
    + intros (H & _). discriminate H.
    + intros (_ & H & _). revert H. apply (bool_decide_unpack _). reflexivity.
    + intros (_ & _ & H). discriminate H.
Defined.

Lemma pick_category_last_field_witness :
  pick_category known_categories
    (form_before ++ ("category_news", "off") :: [("pageno", "2")]) None
  = Some "news".
Proof.
  apply (pick_category_last_field known_categories form_before [("pageno", "2")]
           "category_news" "off" None).
  - reflexivity.
  - intros (_ & H). discriminate H.
  - repeat constructor.
    + intros (H & _). discriminate H.
    + intros (_ & H & _). revert H. apply (bool_decide_unpack _). reflexivity.
    + intros (_ & _ & H). discriminate H.
  - repeat constructor.
Defined.

Lemma image_proxy_ok_witness :
  body (image_proxy sign "searx" no_subset no_resp_subset png_server
          (Some "http://img/a.png") (Some "sig:http://img/a.png") [])
  = [x89; x50; x4e; x47].
Proof.
  destruct (image_proxy_ok sign "searx" no_subset no_resp_subset png_server
              (Some "http://img/a.png") (Some "sig:http://img/a.png") [])
    as (url & ct & Hurl & _ & _ & _ & _ & _ & _ & Hbody & _).
  - reflexivity.
  - rewrite Hbody. reflexivity.
Defined.

End MoreRuns.
